(** * guac: the [files] command of guacone

    A shallow embedding of [cmd/guacone/cmd/files.go]: flag validation,
    the assembler closure that merges and stores graphs, the [emit]
    pipeline, and the coordinator that fans in documents and completion
    signals from the collectors (wait loop, then drain loop).

    Conventions.
    - Go [string]s are byte strings: [String.string].
    - Go [int] is a 64-bit two's complement integer: [Z] with [wrap64].
    - A Go slice is a window on a backing array: its elements up to [len]
      and the rest of the array up to [cap] are both kept.
    - Channels are FIFO buffers (lists, head received first).
    - Calls that leave the program (the logger, the graph store) are
      recorded in a trace, the [World]. *)

From Stdlib Require Import String Ascii List ZArith Lia Bool Arith.
Import ListNotations.

Set Implicit Arguments.

(* ================================================================== *)
(** ** Go prelude *)

Module Go.

(** [error]: a non-nil error value is identified with its message;
    Go's [nil] error is [None] of [option error]. *)
Definition error := string.

(** A fallible result [(v, err)] where exactly one side is meaningful. *)
Inductive result (A : Type) : Type :=
| Ok (a : A)
| Err (e : error).
Arguments Ok {A} a.
Arguments Err {A} e.

(** *** int *)

Definition int_min : Z := - 2 ^ 63.
Definition int_max : Z := 2 ^ 63 - 1.

Definition wrap64 (z : Z) : Z := (z + 2 ^ 63) mod 2 ^ 64 - 2 ^ 63.

Definition int_add (a b : Z) : Z := wrap64 (a + b).

Definition is_int (z : Z) : Prop := (int_min <= z <= int_max)%Z.

(** *** slices *)

(** [elems] are the [len] visible elements, [spare] the part of the backing
    array between [len] and [cap]. *)
Record slice (A : Type) : Type := mkSlice {
  elems : list A;
  spare : list A
}.

Definition len {A} (s : slice A) : nat := length (elems s).
Definition cap {A} (s : slice A) : nat := length (elems s) + length (spare s).

(** [s[:high]].  The Go specification, "Slice expressions": for a slice
    operand the upper index bound is the capacity [cap(s)], not the length;
    an index out of range at run time is a run-time panic ([None]). *)
Definition slice_to {A} (s : slice A) (high : nat) : option (slice A) :=
  if high <=? cap s
  then Some {| elems := firstn high (elems s ++ spare s);
               spare := skipn high (elems s ++ spare s) |}
  else None.

(** A composite literal [[]T{x1, ..., xn}] or the result of [make([]T, n)]:
    the slice spans its whole array, capacity equals length. *)
Definition slice_of {A} (l : list A) : slice A :=
  {| elems := l; spare := [] |}.

(** *** strings.Split with a one-byte separator

    [strings.Split(s, sep)] for a non-empty [sep] cuts [s] at every
    occurrence of [sep] and returns the pieces in order, [Count(s, sep) + 1]
    of them; the source only calls it with [":"]. *)
Fixpoint strings_Split (s : string) (sep : ascii) : list string :=
  match s with
  | EmptyString => [EmptyString]
  | String a s' =>
      if Ascii.eqb a sep then EmptyString :: strings_Split s' sep
      else match strings_Split s' sep with
           | [] => [String a EmptyString]
           | piece :: pieces => String a piece :: pieces
           end
  end.

(** [strings.Count(s, sep)] for a one-byte separator. *)
Fixpoint strings_Count (s : string) (sep : ascii) : nat :=
  match s with
  | EmptyString => 0
  | String a s' => (if Ascii.eqb a sep then 1 else 0) + strings_Count s' sep
  end.

(** [strings.Join(parts, sep)] for a one-byte separator. *)
Fixpoint strings_Join (parts : list string) (sep : ascii) : string :=
  match parts with
  | [] => EmptyString
  | [p] => p
  | p :: ps => (p ++ String sep (strings_Join ps sep))%string
  end.

(** [a[i]] on a slice of strings known to be in range. *)
Definition index (a : list string) (i : nat) : string := nth i a EmptyString.

End Go.

Import Go.

(* ================================================================== *)
(** ** Flags and options *)

Open Scope string_scope.
Open Scope list_scope.
Open Scope nat_scope.

(** The package-level [flags] struct. *)
Record Flags : Type := mkFlags {
  flags_dbAddr : string;
  flags_creds : string;
  flags_realm : string
}.

(** The flag defaults registered by [init]. *)
Definition default_dbAddr : string := "neo4j://localhost:7687".
Definition default_creds : string := "".
Definition default_realm : string := "neo4j".

Record options : Type := mkOptions {
  dbAddr : string;
  user : string;
  pass : string;
  realm : string;
  (* path to folder with documents to collect *)
  path : string
}.

(** [var opts options]: the zero value. *)
Definition zero_options : options :=
  {| dbAddr := ""; user := ""; pass := ""; realm := ""; path := "" |}.

Definition set_user (o : options) (v : string) : options :=
  {| dbAddr := dbAddr o; user := v; pass := pass o; realm := realm o; path := path o |}.
Definition set_pass (o : options) (v : string) : options :=
  {| dbAddr := dbAddr o; user := user o; pass := v; realm := realm o; path := path o |}.
Definition set_dbAddr (o : options) (v : string) : options :=
  {| dbAddr := v; user := user o; pass := pass o; realm := realm o; path := path o |}.
Definition set_path (o : options) (v : string) : options :=
  {| dbAddr := dbAddr o; user := user o; pass := pass o; realm := realm o; path := v |}.

Definition err_creds : error := "creds flag not in correct format user:pass".
Definition err_args : error := "expected positional argument for file_path".

(** [validateFlags(args)], with the global [flags] passed explicitly. *)
Definition validateFlags (flags : Flags) (args : list string) : options * option error :=
  let opts := zero_options in
  let credsSplit := strings_Split (flags_creds flags) ":" in
  if negb (length credsSplit =? 2) then (opts, Some err_creds)
  else
    let opts := set_user opts (index credsSplit 0) in
    let opts := set_pass opts (index credsSplit 1) in
    let opts := set_dbAddr opts (flags_dbAddr flags) in
    if negb (length args =? 1) then (opts, Some err_args)
    else
      let opts := set_path opts (index args 0) in
      (opts, None).

(* ================================================================== *)
(** ** The assembler package: graphs *)

Module Assembler.
Section Graphs.

Variables GuacNode GuacEdge : Type.

Record Graph : Type := mkGraph {
  Nodes : list GuacNode;
  Edges : list GuacEdge
}.

(** [assembler.Graph{Nodes: []assembler.GuacNode{}, Edges: []assembler.GuacEdge{}}] *)
Definition empty_Graph : Graph := {| Nodes := []; Edges := [] |}.

(** Modelled from the spec: [Graph.AppendGraph] of package [assembler] is not
    part of the source at hand.  "Merging two Graphs is defined as
    concatenation of their Nodes and Edges sequences, with no deduplication
    and no identity reconciliation." *)
Definition AppendGraph (g add : Graph) : Graph :=
  {| Nodes := Nodes g ++ Nodes add;
     Edges := Edges g ++ Edges add |}.

(** The merge of [getAssembler]'s closure:
    [combined := Graph{...}; for _, g := range gs { combined.AppendGraph(g) }]. *)
Definition merge (gs : list Graph) : Graph :=
  fold_left (fun combined g => AppendGraph combined g) gs empty_Graph.

End Graphs.
End Assembler.

Import Assembler.

(* ================================================================== *)
(** ** Documents, the logger and the store *)

(** Modelled from the spec: [processor.Document] is declared outside the
    source at hand: "an opaque byte payload ([Blob]) plus metadata [Format]
    and [Type]".  [Blob] is a byte slice (the source converts [d.Blob[:10]]
    with [string(...)]). *)
Record Document : Type := mkDocument {
  Blob : slice Byte.byte;
  DocType : string;
  Format : string
}.

(** One constructor per logging call of [Run] that the coordinator and
    [emit] make, with the call's arguments. *)
Inductive LogLine : Type :=
| Infof_emitting_doc (preview : string) (format type : string)
| Errorf_unable_to_process (err : error) (format type : string)
| Errorf_unable_to_ingest (err : error)
| Errorf_unable_to_assemble (err : error)
| Errorf_collector_ended_with_error (err : error)
| Info_collector_ended_gracefully.

(** Modelled from the spec: [graphdb.CreateAuthTokenWithUsernameAndPassword]
    is outside the source at hand; "createAuthToken(user, pass, realm) ->
    token: builds connection credentials".  The token records the three
    arguments it was created with. *)
Record AuthToken : Type := mkAuthToken {
  token_username : string;
  token_password : string;
  token_realm : string
}.

Definition CreateAuthTokenWithUsernameAndPassword (username password realm : string)
  : AuthToken :=
  {| token_username := username; token_password := password; token_realm := realm |}.

Section Pipeline.

Variables GuacNode GuacEdge : Type.
Local Abbreviation Graph := (Assembler.Graph GuacNode GuacEdge).

(** What the run does to the outside: the graphs handed to
    [assembler.StoreGraph], in call order, and the log. *)
Record World : Type := mkWorld {
  stored : list Graph;
  logged : list LogLine
}.

Definition empty_World : World := {| stored := []; logged := [] |}.

Definition log (w : World) (l : LogLine) : World :=
  {| stored := stored w; logged := logged w ++ [l] |}.

(** External collaborators. *)
Variable DocumentTree : Type.
Variable Client : Type.
(** [process.Process(ctx, d)] *)
Variable Process : Document -> result DocumentTree.
(** [parser.ParseDocumentTree(doc)] *)
Variable ParseDocumentTree : DocumentTree -> result (list Graph).
(** [graphdb.NewGraphClient(addr, token)] *)
Variable NewGraphClient : string -> AuthToken -> result Client.
(** The error [assembler.StoreGraph(g, client)] returns, which may depend on
    what was stored before. *)
Variable StoreGraph_err : Graph -> Client -> list Graph -> option error.

(** [assembler.StoreGraph(g, client)]: the call is recorded, its error
    returned. *)
Definition StoreGraph (g : Graph) (client : Client) (w : World) : World * option error :=
  ({| stored := stored w ++ [g]; logged := logged w |},
   StoreGraph_err g client (stored w)).

Definition getProcessor : result (Document -> result DocumentTree) :=
  Ok (fun d => Process d).

Definition getIngestor : result (DocumentTree -> result (list Graph)) :=
  Ok (fun doc =>
        match ParseDocumentTree doc with
        | Err err => Err err
        | Ok inputs => Ok inputs
        end).

(** The [authToken] local of [getAssembler]. *)
Definition getAssembler_authToken (opts : options) : AuthToken :=
  CreateAuthTokenWithUsernameAndPassword (user opts) (pass opts) (realm opts).

Definition getAssembler (opts : options)
  : result (list Graph -> World -> World * option error) :=
  let authToken := getAssembler_authToken opts in
  match NewGraphClient (dbAddr opts) authToken with
  | Err err => Err err
  | Ok client =>
      Ok (fun gs w =>
            let combined := merge gs in
            match StoreGraph combined client w with
            | (w', Some err) => (w', Some err)
            | (w', None) => (w', None)
            end)
  end.

(** The [emit] closure of [Run], over the three stage functions it
    captures.  It returns nothing: its effect is on the world. *)
Definition emit
    (processorFunc : Document -> result DocumentTree)
    (ingestorFunc : DocumentTree -> result (list Graph))
    (assemblerFunc : list Graph -> World -> World * option error)
    (d : Document) (w : World) : World :=
  match processorFunc d with
  | Err err => log w (Errorf_unable_to_process err (Format d) (DocType d))
  | Ok docTree =>
      match ingestorFunc docTree with
      | Err err => log w (Errorf_unable_to_ingest err)
      | Ok graphs =>
          match assemblerFunc graphs w with
          | (w', Some err) => log w' (Errorf_unable_to_assemble err)
          | (w', None) => w'
          end
      end
  end.

(** The pipeline as [Run] builds it: [None] where [Run] calls [os.Exit(1)]
    because a component could not be constructed. *)
Definition Run_emit (opts : options) : option (Document -> World -> World) :=
  match getProcessor with
  | Err _ => None
  | Ok processorFunc =>
      match getIngestor with
      | Err _ => None
      | Ok ingestorFunc =>
          match getAssembler opts with
          | Err _ => None
          | Ok assemblerFunc => Some (emit processorFunc ingestorFunc assemblerFunc)
          end
      end
  end.

(* ------------------------------------------------------------------ *)
(** ** The coordinator *)

(** Where the coordinator stands: at the [select] of the wait loop, at the
    test of the drain loop, or past the end of [Run]. *)
Inductive PC : Type := WaitLoop | DrainLoop | Returned.

(** A completion signal on [errChan]; the sending collector's number is
    kept with it for the statements, the code sees the [error] only. *)
Definition Signal : Type := (nat * option error)%type.

Record State : Type := mkState {
  pc : PC;
  panicked : bool;
  docChan : list Document;
  errChan : list Signal;
  collectorsDone : Z;
  world : World;
  (* history, not read by the code *)
  placed : list Document;     (* every document sent on docChan *)
  emitted : list Document;    (* every document passed to emit *)
  observed : list Signal;     (* every signal received from errChan *)
  signalled : list nat        (* the collectors that sent their signal *)
}.

(** The state after [collector.Collect] returned and [collectorsDone := 0],
    the first test of [collectorsDone < numCollectors] made. *)
Definition init (numCollectors : Z) : State :=
  {| pc := if (0 <? numCollectors)%Z then WaitLoop else DrainLoop;
     panicked := false;
     docChan := []; errChan := [];
     collectorsDone := 0%Z;
     world := empty_World;
     placed := []; emitted := []; observed := []; signalled := [] |}.

(** The [emit] the coordinator calls. *)
Variable emitFunc : Document -> World -> World.

(** [logger.Infof("emitting doc: ...", string(d.Blob[:10]), d.Format, d.Type);
    emit(d)]: the body both loops run on a received document.  The slice
    expression is evaluated first; when it panics nothing is logged and
    [emit] is not reached. *)
Definition log_and_emit (d : Document) (w : World) : option World :=
  match slice_to (Blob d) 10 with
  | None => None
  | Some preview =>
      let w := log w (Infof_emitting_doc (string_of_list_byte (elems preview))
                        (Format d) (DocType d)) in
      Some (emitFunc d w)
  end.

(** A received document [d], the channel left holding [rest]. *)
Definition on_doc (s : State) (d : Document) (rest : list Document) : State :=
  match log_and_emit d (world s) with
  | None =>
      {| pc := pc s; panicked := true;
         docChan := rest; errChan := errChan s;
         collectorsDone := collectorsDone s; world := world s;
         placed := placed s; emitted := emitted s;
         observed := observed s; signalled := signalled s |}
  | Some w =>
      {| pc := pc s; panicked := false;
         docChan := rest; errChan := errChan s;
         collectorsDone := collectorsDone s; world := w;
         placed := placed s; emitted := emitted s ++ [d];
         observed := observed s; signalled := signalled s |}
  end.

(** A received completion signal: log, count, test the loop condition. *)
Definition on_err (numCollectors : Z) (s : State) (sig : Signal) (rest : list Signal)
  : State :=
  let w := match snd sig with
           | Some err => log (world s) (Errorf_collector_ended_with_error err)
           | None => log (world s) Info_collector_ended_gracefully
           end in
  let done := int_add (collectorsDone s) 1 in
  {| pc := if (done <? numCollectors)%Z then WaitLoop else DrainLoop;
     panicked := false;
     docChan := docChan s; errChan := rest;
     collectorsDone := done; world := w;
     placed := placed s; emitted := emitted s;
     observed := observed s ++ [sig]; signalled := signalled s |}.

(** What can happen next: a collector sends a document or its completion
    signal, the [select] of the wait loop takes one of its two cases, or
    the drain loop makes one turn. *)
Inductive Action : Type :=
| Send (p : nat) (d : Document)
| Finish (p : nat) (e : option error)
| SelectDoc
| SelectErr
| DrainTurn.

(** One action; [None] when it cannot happen in [s] (an empty channel
    cannot be received from, a dead or returned coordinator does not move). *)
Definition step (numCollectors : Z) (a : Action) (s : State) : option State :=
  match a with
  | Send p d =>
      Some {| pc := pc s; panicked := panicked s;
              docChan := docChan s ++ [d]; errChan := errChan s;
              collectorsDone := collectorsDone s; world := world s;
              placed := placed s ++ [d]; emitted := emitted s;
              observed := observed s; signalled := signalled s |}
  | Finish p e =>
      Some {| pc := pc s; panicked := panicked s;
              docChan := docChan s; errChan := errChan s ++ [(p, e)];
              collectorsDone := collectorsDone s; world := world s;
              placed := placed s; emitted := emitted s;
              observed := observed s; signalled := signalled s ++ [p] |}
  | SelectDoc =>
      match panicked s, pc s, docChan s with
      | false, WaitLoop, d :: rest => Some (on_doc s d rest)
      | _, _, _ => None
      end
  | SelectErr =>
      match panicked s, pc s, errChan s with
      | false, WaitLoop, sig :: rest => Some (on_err numCollectors s sig rest)
      | _, _, _ => None
      end
  | DrainTurn =>
      match panicked s, pc s with
      | false, DrainLoop =>
          if (0 <? length (docChan s))%nat then
            match docChan s with
            | d :: rest => Some (on_doc s d rest)
            | [] => None
            end
          else
            Some {| pc := Returned; panicked := false;
                    docChan := docChan s; errChan := errChan s;
                    collectorsDone := collectorsDone s; world := world s;
                    placed := placed s; emitted := emitted s;
                    observed := observed s; signalled := signalled s |}
      | _, _ => None
      end
  end.

(** A schedule, run from [s]. *)
Fixpoint run (numCollectors : Z) (sched : list Action) (s : State) : option State :=
  match sched with
  | [] => Some s
  | a :: sched' =>
      match step numCollectors a s with
      | Some s' => run numCollectors sched' s'
      | None => None
      end
  end.

(** The states the coordinator can be in. *)
Definition reachable (numCollectors : Z) (s : State) : Prop :=
  exists sched, run numCollectors sched (init numCollectors) = Some s.

(** The coordinator has left the wait loop. *)
Definition past_wait_loop (s : State) : bool :=
  match pc s with
  | WaitLoop => false
  | DrainLoop | Returned => true
  end.

(** The collectors' side of the contract: collector [p] is one of the
    [numCollectors] started, sends its completion signal once, and sends no
    document after the coordinator has received that signal. *)
Definition allowed (numCollectors : Z) (a : Action) (s : State) : bool :=
  match a with
  | Send p d =>
      (Z.of_nat p <? numCollectors)%Z
      && negb (existsb (Nat.eqb p) (map fst (observed s)))
  | Finish p e =>
      (Z.of_nat p <? numCollectors)%Z
      && negb (existsb (Nat.eqb p) (signalled s))
  | SelectDoc | SelectErr | DrainTurn => true
  end.

Fixpoint disciplined (numCollectors : Z) (sched : list Action) (s : State) : bool :=
  match sched with
  | [] => true
  | a :: sched' =>
      allowed numCollectors a s
      && match step numCollectors a s with
         | Some s' => disciplined numCollectors sched' s'
         | None => false
         end
  end.

(** Every preview [d.Blob[:10]] of these documents is in range. *)
Definition previews_in_range (ds : list Document) : Prop :=
  Forall (fun d => 10 <= cap (Blob d)) ds.

(** *** Invariants of the coordinator *)

(** The counter is the number of signals received, and tells where the
    coordinator stands. *)
Definition counting (numCollectors : Z) (s : State) : Prop :=
  collectorsDone s = Z.of_nat (length (observed s))
  /\ (past_wait_loop s = false -> (collectorsDone s < numCollectors)%Z)
  /\ (past_wait_loop s = true -> collectorsDone s = numCollectors).

(** While the coordinator lives, the documents sent are those passed to
    [emit] followed by those still in the channel, in order; it only dies
    on a document whose preview is out of range. *)
Definition fifo (s : State) : Prop :=
  (panicked s = false -> placed s = emitted s ++ docChan s)
  /\ (panicked s = true -> ~ previews_in_range (placed s)).

(** The signals received and those waiting in [errChan] are the signals
    sent, one per collector, from collectors that were started. *)
Definition signals_ok (numCollectors : Z) (s : State) : Prop :=
  map fst (observed s) ++ map fst (errChan s) = signalled s
  /\ NoDup (signalled s)
  /\ Forall (fun p => (Z.of_nat p < numCollectors)%Z) (signalled s).

(** After [Run] returned nothing is left in the channel. *)
Definition closed (s : State) : Prop :=
  pc s = Returned -> panicked s = false /\ docChan s = [].

Definition well_run (numCollectors : Z) (s : State) : Prop :=
  counting numCollectors s /\ signals_ok numCollectors s /\ closed s.

(** The loop body on a document whose preview is in range. *)
Definition logged_emit (w : World) (d : Document) : World :=
  emitFunc d (log w (Infof_emitting_doc
                       (string_of_list_byte (firstn 10 (elems (Blob d) ++ spare (Blob d))))
                       (Format d) (DocType d))).

(** Everything of a state but the world: what the coordinator's control
    flow and the channels consist of. *)
Definition control (s : State)
  : PC * bool * list Document * list Signal * Z
    * (list Document * list Document * list Signal * list nat) :=
  (pc s, panicked s, docChan s, errChan s, collectorsDone s,
   (placed s, emitted s, observed s, signalled s)).

(** The statements' vocabulary for the pipeline: the graphs a document
    yields when both [Process] and the ingestor succeed on it, and the
    store writes a sequence of emitted documents then amounts to. *)
Definition ingested (d : Document) : option (list Graph) :=
  match Process d with
  | Err _ => None
  | Ok docTree =>
      match ParseDocumentTree docTree with
      | Err _ => None
      | Ok graphs => Some graphs
      end
  end.

Definition store_writes (ds : list Document) : list Graph :=
  flat_map (fun d => match ingested d with
                     | Some graphs => [merge graphs]
                     | None => []
                     end) ds.

End Pipeline.

(* ================================================================== *)
(** ** Reading the log *)

(** The log line the coordinator writes for a received document. *)
Definition preview_line (d : Document) : LogLine :=
  Infof_emitting_doc
    (string_of_list_byte (firstn 10 (elems (Blob d) ++ spare (Blob d))))
    (Format d) (DocType d).

(** The lines written on completion signals, as the signals they stand
    for. *)
Definition collector_outcomes (lines : list LogLine) : list (option error) :=
  flat_map (fun l => match l with
                     | Errorf_collector_ended_with_error err => [Some err]
                     | Info_collector_ended_gracefully => [None]
                     | _ => []
                     end) lines.

(** The lines written on received documents. *)
Definition emitting_lines (lines : list LogLine) : list LogLine :=
  filter (fun l => match l with
                   | Infof_emitting_doc _ _ _ => true
                   | _ => false
                   end) lines.

(** The lines [emit] writes: one of its three error lines. *)
Definition stage_error_line (l : LogLine) : bool :=
  match l with
  | Errorf_unable_to_process _ _ _
  | Errorf_unable_to_ingest _
  | Errorf_unable_to_assemble _ => true
  | _ => false
  end.

(** The actions that are the coordinator's own. *)
Definition coordinator_action (a : Action) : bool :=
  match a with
  | Send _ _ | Finish _ _ => false
  | SelectDoc | SelectErr | DrainTurn => true
  end.

(* ================================================================== *)
(** ** The start of [Run] *)

(** What [Run] does before the wait loop, call by call. *)
Inductive Effect : Type :=
| Printf_unable_to_validate_flags (err : error)
| cmd_Help
| NewFileCollector_call (path : string)   (* file.NewFileCollector(ctx, path, false, time.Second) *)
| RegisterDocumentCollector_call
| Errorf_unable_to_register (err : error)
| Errorf_error (err : error)
| NewGraphClient_call (addr : string) (token : AuthToken)
| Collect_call
| logger_Fatal (err : error).

Section Startup.

Variables GuacNode GuacEdge DocumentTree Client : Type.
Local Abbreviation Graph := (Assembler.Graph GuacNode GuacEdge).
Local Abbreviation World := (World GuacNode GuacEdge).

Variable Process : Document -> result DocumentTree.
Variable ParseDocumentTree : DocumentTree -> result (list Graph).
Variable NewGraphClient : string -> AuthToken -> result Client.
Variable StoreGraph_err : Graph -> Client -> list Graph -> option error.
(** The error of [collector.RegisterDocumentCollector] for the file
    collector made on a path. *)
Variable RegisterDocumentCollector_err : string -> option error.
(** [collector.Collect(ctx)]: the number of collectors started, or an
    error; it may depend on how the registration went. *)
Variable Collect : option error -> result Z.

(** How the start of [Run] ends: [os.Exit(code)], [logger.Fatal(err)], or
    the wait loop entered with the pipeline and the number of collectors. *)
Inductive Started : Type :=
| Exited (code : Z)
| Fatal (err : error)
| Collecting (emitFunc : Document -> World -> World) (numCollectors : Z).

(** [Run], up to [collector.Collect]. *)
Definition Run_start (flags : Flags) (args : list string) : list Effect * Started :=
  match validateFlags flags args with
  | (_, Some err) =>
      ([Printf_unable_to_validate_flags err; cmd_Help], Exited 1)
  | (opts, None) =>
      (* Register collector *)
      let registered := RegisterDocumentCollector_err (path opts) in
      let done :=
        [NewFileCollector_call (path opts); RegisterDocumentCollector_call]
        ++ match registered with
           | Some err => [Errorf_unable_to_register err]
           | None => []
           end in
      (* Get pipeline of components *)
      match getProcessor Process with
      | Err err => (done ++ [Errorf_error err], Exited 1)
      | Ok processorFunc =>
          match getIngestor ParseDocumentTree with
          | Err err => (done ++ [Errorf_error err], Exited 1)
          | Ok ingestorFunc =>
              let done :=
                done ++ [NewGraphClient_call (dbAddr opts) (getAssembler_authToken opts)] in
              match getAssembler NewGraphClient StoreGraph_err opts with
              | Err err => (done ++ [Errorf_error err], Exited 1)
              | Ok assemblerFunc =>
                  let emitFunc := emit processorFunc ingestorFunc assemblerFunc in
                  (* Collect *)
                  let done := done ++ [Collect_call] in
                  match Collect registered with
                  | Err err => (done ++ [logger_Fatal err], Fatal err)
                  | Ok numCollectors => (done, Collecting emitFunc numCollectors)
                  end
              end
          end
      end
  end.

(** What has been done when [NewGraphClient] has been called. *)
Definition until_client (opts : options) : list Effect :=
  [NewFileCollector_call (path opts); RegisterDocumentCollector_call]
  ++ match RegisterDocumentCollector_err (path opts) with
     | Some err => [Errorf_unable_to_register err]
     | None => []
     end
  ++ [NewGraphClient_call (dbAddr opts) (getAssembler_authToken opts)].

(** [Run] as a whole: the start, then the coordinator under a schedule.
    [None] when [Run] ended before the wait loop, or when the schedule asks
    for a step that cannot be taken. *)
Definition Run (flags : Flags) (args : list string) (sched : list Action)
  : option (State GuacNode GuacEdge) :=
  match snd (Run_start flags args) with
  | Collecting emitFunc numCollectors =>
      run emitFunc numCollectors sched (init GuacNode GuacEdge numCollectors)
  | Exited _ | Fatal _ => None
  end.

End Startup.

(* ================================================================== *)
(** ** Concrete inputs *)

Module Sample.

(** Flags as a user would give them, the realm left at its default. *)
Definition flags_alice : Flags :=
  {| flags_dbAddr := default_dbAddr; flags_creds := "alice:secret";
     flags_realm := default_realm |}.

Definition flags_with_creds (creds : string) : Flags :=
  {| flags_dbAddr := default_dbAddr; flags_creds := creds;
     flags_realm := default_realm |}.

Definition bytes (s : string) : list Byte.byte := list_byte_of_string s.

(** A three-byte payload in an array of exactly three bytes, as
    [[]byte{'a', 'b', 'c'}] or a buffer made with [make([]byte, 3)] is. *)
Definition doc_short : Document :=
  {| Blob := slice_of (bytes "abc"); DocType := "SPDX"; Format := "TAGVALUE" |}.

(** The same three bytes at the start of a 512-byte array, as a reader that
    allocates its buffer in advance returns them. *)
Definition doc_short_roomy : Document :=
  {| Blob := {| elems := bytes "abc"; spare := repeat Byte.x00 509 |};
     DocType := "SPDX"; Format := "TAGVALUE" |}.

Definition doc_long : Document :=
  {| Blob := slice_of (bytes "SPDXVersion: SPDX-2.2"); DocType := "SPDX"; Format := "TAGVALUE" |}.

Definition doc_bad : Document :=
  {| Blob := slice_of (bytes "not a document at all"); DocType := "UNKNOWN"; Format := "UNKNOWN" |}.

(** Stage functions to run the pipeline with: nodes are names, edges pairs
    of names, a document tree is the document itself. *)
Definition Node := string.
Definition Edge := (string * string)%type.

Definition Process (d : Document) : result Document :=
  if String.eqb (DocType d) "UNKNOWN" then Err "unsupported document" else Ok d.

Definition ParseDocumentTree (t : Document) : result (list (Graph Node Edge)) :=
  Ok [ {| Nodes := [DocType t]; Edges := [] |};
       {| Nodes := [Format t]; Edges := [(DocType t, Format t)] |} ].

Definition NewGraphClient (addr : string) (tok : AuthToken) : result (string * AuthToken) :=
  Ok (addr, tok).

Definition StoreGraph_err (g : Graph Node Edge) (c : string * AuthToken)
    (before : list (Graph Node Edge)) : option error := None.

Definition opts_alice : options :=
  {| dbAddr := default_dbAddr; user := "alice"; pass := "secret"; realm := "";
     path := "/tmp/docs" |}.

(** The pipeline [Run] builds from these. *)
Definition pipeline : Document -> World Node Edge -> World Node Edge :=
  match Run_emit Process ParseDocumentTree NewGraphClient StoreGraph_err opts_alice with
  | Some e => e
  | None => fun _ w => w
  end.

(** One collector sends a document, then its completion signal. *)
Definition one_document (d : Document) : list Action :=
  [Send 0 d; Finish 0 None].

(** The same, a second document sent before the signal. *)
Definition two_documents (d1 d2 : Document) : list Action :=
  [Send 0 d1; Send 0 d2; Finish 0 None].

(** The wait loop with [d] waiting in the channel, one collector running. *)
Definition waiting_on (d : Document) : State Node Edge :=
  {| pc := WaitLoop; panicked := false;
     docChan := [d]; errChan := [];
     collectorsDone := 0%Z; world := empty_World Node Edge;
     placed := [d]; emitted := []; observed := []; signalled := [] |}.

(** What a run came to: where the coordinator stands and whether it died;
    the documents sent, those passed to [emit], those left in the channel. *)
Record Outcome : Type := mkOutcome {
  at_pc : PC;
  died : bool;
  were_sent : list Document;
  were_emitted : list Document;
  are_left : list Document
}.

Definition outcome (r : option (State Node Edge)) : option Outcome :=
  match r with
  | Some s =>
      Some {| at_pc := pc s; died := panicked s; were_sent := placed s;
              were_emitted := emitted s; are_left := docChan s |}
  | None => None
  end.

(** The collaborators of the start of [Run]: the registration goes
    through, one collector is started. *)
Definition RegisterDocumentCollector_err (path : string) : option error := None.

Definition Collect (registered : option error) : result Z := Ok 1%Z.

(** A full run: the document sent, the signal, both taken, the drain. *)
Definition full_run (d : Document) : list Action :=
  one_document d ++ [SelectDoc; SelectErr; DrainTurn].


End Sample.

(* ================================================================== *)
(** * Properties *)

(** ** strings.Split *)

Lemma strings_Split_nonempty (s : string) (sep : ascii) :
  strings_Split s sep <> [].
Proof.
  destruct s as [|a s]; simpl; [discriminate|].
  destruct (Ascii.eqb a sep); [discriminate|].
  destruct (strings_Split s sep); discriminate.
Qed.

Lemma strings_Split_length (s : string) (sep : ascii) :
  length (strings_Split s sep) = S (strings_Count s sep).
Proof.
  induction s as [|a s IH]; simpl; [reflexivity|].
  destruct (Ascii.eqb a sep); simpl.
  - now rewrite IH.
  - destruct (strings_Split s sep) as [|piece pieces] eqn:E; simpl in *; [discriminate|].
    exact IH.
Qed.

(** Gluing the pieces back with the separator gives the string. *)
Lemma strings_Join_Split (s : string) (sep : ascii) :
  strings_Join (strings_Split s sep) sep = s.
Proof.
  induction s as [|a s IH]; simpl; [reflexivity|].
  destruct (Ascii.eqb a sep) eqn:Ea.
  - apply Ascii.eqb_eq in Ea. subst a.
    pose proof (strings_Split_nonempty s sep) as Hne.
    destruct (strings_Split s sep) as [|piece pieces]; [contradiction|].
    simpl. simpl in IH. now rewrite IH.
  - pose proof (strings_Split_nonempty s sep) as Hne.
    destruct (strings_Split s sep) as [|piece pieces]; [contradiction|].
    destruct pieces as [|q qs]; simpl in *; now rewrite IH.
Qed.

(** No piece contains the separator. *)
Lemma strings_Split_pieces (s : string) (sep : ascii) :
  Forall (fun piece => strings_Count piece sep = 0) (strings_Split s sep).
Proof.
  induction s as [|a s IH]; simpl.
  - constructor; [reflexivity | constructor].
  - destruct (Ascii.eqb a sep) eqn:Ea.
    + constructor; [reflexivity | exact IH].
    + destruct (strings_Split s sep) as [|piece pieces].
      * constructor; [simpl; now rewrite Ea | constructor].
      * inversion IH as [|? ? Hp Hps]; subst.
        constructor; [simpl; now rewrite Ea | exact Hps].
Qed.

(** ** validateFlags *)

Lemma err_creds_not_err_args : err_creds <> err_args.
Proof. discriminate. Qed.

(** The three outcomes of [validateFlags], by the two tests it makes. *)
Lemma validateFlags_cases (fl : Flags) (args : list string) :
  let parts := strings_Split (flags_creds fl) ":" in
  (length parts <> 2 /\ validateFlags fl args = (zero_options, Some err_creds))
  \/ (length parts = 2 /\ length args <> 1 /\
      validateFlags fl args =
        ({| dbAddr := flags_dbAddr fl; user := index parts 0; pass := index parts 1;
            realm := ""; path := "" |}, Some err_args))
  \/ (length parts = 2 /\ length args = 1 /\
      validateFlags fl args =
        ({| dbAddr := flags_dbAddr fl; user := index parts 0; pass := index parts 1;
            realm := ""; path := index args 0 |}, None)).
Proof.
  intros parts. unfold validateFlags. fold parts.
  destruct (length parts =? 2) eqn:Ep; simpl.
  - apply Nat.eqb_eq in Ep.
    destruct (length args =? 1) eqn:Ea; simpl.
    + apply Nat.eqb_eq in Ea. right; right. repeat split; assumption.
    + apply Nat.eqb_neq in Ea. right; left. repeat split; assumption.
  - apply Nat.eqb_neq in Ep. left. split; [assumption | reflexivity].
Qed.

(** Both fields come from the pieces of [creds], whatever the arguments. *)
Lemma validateFlags_user_pass (fl : Flags) (args : list string) (u p : string) :
  strings_Split (flags_creds fl) ":" = [u; p] ->
  user (fst (validateFlags fl args)) = u /\ pass (fst (validateFlags fl args)) = p.
Proof.
  intros Hparts.
  destruct (validateFlags_cases fl args) as [[Hn _] | [(_ & _ & E) | (_ & _ & E)]];
    rewrite Hparts in *.
  - now elim Hn.
  - rewrite E. split; reflexivity.
  - rewrite E. split; reflexivity.
Qed.

(** C6, as stated, fails: [creds = "alice:secret"] splits into
    exactly two parts, yet with no positional argument validation returns
    an error. *)
Lemma creds_alice_secret_without_path_is_error :
  strings_Split "alice:secret" ":" = ["alice"; "secret"]
  /\ snd (validateFlags Sample.flags_alice []) = Some err_args
  /\ snd (validateFlags Sample.flags_alice []) <> None.
Proof. repeat split; discriminate. Qed.

(** C6 (amended): flag validation succeeds exactly when [creds]
    splits into two parts on [":"], that is when it holds one colon, and
    exactly one positional argument is given; [user] and [pass] are the two
    parts; on any other shape of [creds] it fails with the creds-format
    error, whatever the arguments.  So ["alice:secret"] gives user
    ["alice"], pass ["secret"], and no error when one positional argument is
    given, and ["alice"] and ["a:b:c"] give the error. *)
Theorem validateFlags_creds_shape (fl : Flags) (args : list string) :
  let r := validateFlags fl args in
  let parts := strings_Split (flags_creds fl) ":" in
  let with_creds c :=
    {| flags_dbAddr := flags_dbAddr fl; flags_creds := c; flags_realm := flags_realm fl |} in
  (snd r = None <-> length parts = 2 /\ length args = 1)
  /\ (snd r = Some err_creds <-> length parts <> 2)
  /\ (length parts = 2 <-> strings_Count (flags_creds fl) ":" = 1)
  /\ (forall u p, parts = [u; p] ->
        user (fst r) = u /\ pass (fst r) = p
        /\ flags_creds fl = (u ++ String ":" p)%string)
  /\ (user (fst (validateFlags (with_creds "alice:secret") args)) = "alice"
      /\ pass (fst (validateFlags (with_creds "alice:secret") args)) = "secret"
      /\ (length args = 1 -> snd (validateFlags (with_creds "alice:secret") args) = None))
  /\ snd (validateFlags (with_creds "alice") args) = Some err_creds
  /\ snd (validateFlags (with_creds "a:b:c") args) = Some err_creds.
Proof.
  intros r parts with_creds.
  assert (Hshape : forall fl',
             (snd (validateFlags fl' args) = None
              <-> length (strings_Split (flags_creds fl') ":") = 2 /\ length args = 1)
             /\ (snd (validateFlags fl' args) = Some err_creds
                 <-> length (strings_Split (flags_creds fl') ":") <> 2)).
  { intros fl'.
    destruct (validateFlags_cases fl' args) as [[Hn E] | [(H2 & Hn & E) | (H2 & H1 & E)]];
      rewrite E; simpl.
    - split; split; intros H; try discriminate; try reflexivity; tauto.
    - split; split; intros H; try discriminate; try tauto.
    - split; split; intros H; try discriminate; try reflexivity; tauto. }
  split; [apply (Hshape fl)|].
  split; [apply (Hshape fl)|].
  split.
  { unfold parts. rewrite strings_Split_length. lia. }
  split.
  { intros u p Hparts.
    destruct (validateFlags_user_pass fl args Hparts) as [Hu Hp].
    split; [exact Hu|]. split; [exact Hp|].
    pose proof (strings_Join_Split (flags_creds fl) ":") as HJ.
    fold parts in HJ. rewrite Hparts in HJ. simpl in HJ. now symmetry. }
  split.
  { assert (Hparts : strings_Split (flags_creds (with_creds "alice:secret")) ":"
                     = ["alice"; "secret"]) by reflexivity.
    destruct (validateFlags_user_pass (with_creds "alice:secret") args Hparts) as [Hu Hp].
    split; [exact Hu|]. split; [exact Hp|].
    intros Hargs. apply (Hshape (with_creds "alice:secret")). split; [reflexivity | exact Hargs]. }
  split.
  - apply (Hshape (with_creds "alice")). simpl. discriminate.
  - apply (Hshape (with_creds "a:b:c")). simpl. discriminate.
Qed.

Lemma validateFlags_creds_shape_witness :
  validateFlags Sample.flags_alice ["/tmp/docs"] = (Sample.opts_alice, None)
  /\ (snd (validateFlags Sample.flags_alice ["/tmp/docs"]) = None
      <-> length (strings_Split "alice:secret" ":") = 2 /\ length ["/tmp/docs"] = 1).
Proof.
  split; [reflexivity|].
  exact (proj1 (validateFlags_creds_shape Sample.flags_alice ["/tmp/docs"])).
Defined.

(** C7, as stated, fails: with a malformed [creds] the error for zero
    positional arguments is the creds-format one, and with exactly one
    argument the returned options carry no path. *)
Lemma malformed_creds_hide_positional_check :
  snd (validateFlags (Sample.flags_with_creds "alice") []) = Some err_creds
  /\ snd (validateFlags (Sample.flags_with_creds "alice") []) <> Some err_args
  /\ path (fst (validateFlags (Sample.flags_with_creds "alice") ["/tmp/docs"])) = ""
  /\ path (fst (validateFlags (Sample.flags_with_creds "alice") ["/tmp/docs"])) <> "/tmp/docs".
Proof. repeat split; discriminate. Qed.

(** C7 (amended): when [creds] has the user:pass shape, [validateFlags]
    returns the error ["expected positional argument for file_path"] exactly
    when the argument list does not hold one element, so for zero arguments
    and for two or more; with exactly one argument there is no error and the
    options' path is that argument. *)
Theorem validateFlags_positional (fl : Flags) (args : list string) :
  length (strings_Split (flags_creds fl) ":") = 2 ->
  let r := validateFlags fl args in
  (snd r = Some err_args <-> length args <> 1)
  /\ snd (validateFlags fl []) = Some err_args
  /\ (forall a b rest, snd (validateFlags fl (a :: b :: rest)) = Some err_args)
  /\ (forall a, args = [a] -> path (fst r) = a /\ snd r = None).
Proof.
  intros Hcreds r.
  assert (Hcount : forall args',
             snd (validateFlags fl args') = Some err_args <-> length args' <> 1).
  { intros args'.
    destruct (validateFlags_cases fl args') as [[Hn _] | [(_ & Hn & E) | (_ & H1 & E)]].
    - contradiction.
    - rewrite E; simpl. tauto.
    - rewrite E; simpl. split; [discriminate | tauto]. }
  split; [apply Hcount|].
  split; [apply Hcount; discriminate|].
  split; [intros a b rest; apply Hcount; discriminate|].
  intros a ->. subst r.
  destruct (validateFlags_cases fl [a]) as [[Hn _] | [(_ & Hn & _) | (_ & _ & E)]].
  - contradiction.
  - now elim Hn.
  - rewrite E. split; reflexivity.
Qed.

Lemma validateFlags_positional_witness :
  length (strings_Split (flags_creds Sample.flags_alice) ":") = 2
  /\ snd (validateFlags Sample.flags_alice []) = Some err_args
  /\ path (fst (validateFlags Sample.flags_alice ["/tmp/docs"])) = "/tmp/docs".
Proof.
  split; [reflexivity|].
  pose proof (@validateFlags_positional Sample.flags_alice ["/tmp/docs"] eq_refl)
    as (_ & Hzero & _ & Hone).
  split; [exact Hzero|].
  exact (proj1 (Hone "/tmp/docs" eq_refl)).
Defined.

(** C8 fails on the code: [validateFlags] copies [dbAddr] from the
    flags but never assigns [opts.realm], so the options keep the zero value
    [""] and the auth token is created with an empty realm.  With the flags
    [--creds alice:secret] and the realm left at its default ["neo4j"]:
    validation succeeds, the realm of the options is [""], not ["neo4j"]. *)
Theorem validateFlags_leaves_realm_unset :
  (forall fl args,
      realm (fst (validateFlags fl args)) = ""
      /\ token_realm (getAssembler_authToken (fst (validateFlags fl args))) = "")
  /\ flags_realm Sample.flags_alice = "neo4j"
  /\ snd (validateFlags Sample.flags_alice ["/tmp/docs"]) = None
  /\ realm (fst (validateFlags Sample.flags_alice ["/tmp/docs"])) = ""
  /\ realm (fst (validateFlags Sample.flags_alice ["/tmp/docs"]))
     <> flags_realm Sample.flags_alice
  /\ dbAddr (fst (validateFlags Sample.flags_alice ["/tmp/docs"]))
     = flags_dbAddr Sample.flags_alice.
Proof.
  split.
  - intros fl args.
    destruct (validateFlags_cases fl args) as [[_ E] | [(_ & _ & E) | (_ & _ & E)]];
      rewrite E; split; reflexivity.
  - repeat split; discriminate.
Qed.

(** ** The merge of the assembler *)

Section MergeFacts.

Context {GuacNode GuacEdge : Type}.
Local Abbreviation Graph := (Assembler.Graph GuacNode GuacEdge).

(** The loop of the closure, started from any accumulator. *)
Lemma fold_AppendGraph (gs : list Graph) (acc : Graph) :
  fold_left (fun combined g => AppendGraph combined g) gs acc
  = {| Nodes := Nodes acc ++ concat (map (@Nodes _ _) gs);
       Edges := Edges acc ++ concat (map (@Edges _ _) gs) |}.
Proof.
  revert acc. induction gs as [|g gs IH]; intros acc; simpl.
  - rewrite !app_nil_r. now destruct acc.
  - rewrite IH. simpl. now rewrite !app_assoc.
Qed.

Lemma merge_Nodes (gs : list Graph) :
  Nodes (merge gs) = concat (map (@Nodes _ _) gs).
Proof. unfold merge. now rewrite fold_AppendGraph. Qed.

Lemma merge_Edges (gs : list Graph) :
  Edges (merge gs) = concat (map (@Edges _ _) gs).
Proof. unfold merge. now rewrite fold_AppendGraph. Qed.

(** C4: the merge is a total function of the sequence of graphs; the
    nodes of the result are the nodes of the inputs concatenated in input
    order, and so are the edges, nothing removed; two graphs give their
    nodes and edges with those of the first in front and the lengths added;
    the empty sequence gives the graph with no node and no edge. *)
Theorem merge_is_concatenation (gs : list Graph) (g1 g2 : Graph) :
  Nodes (merge gs) = concat (map (@Nodes _ _) gs)
  /\ Edges (merge gs) = concat (map (@Edges _ _) gs)
  /\ length (Nodes (merge gs)) = list_sum (map (fun g => length (Nodes g)) gs)
  /\ length (Edges (merge gs)) = list_sum (map (fun g => length (Edges g)) gs)
  /\ Nodes (merge [g1; g2]) = Nodes g1 ++ Nodes g2
  /\ Edges (merge [g1; g2]) = Edges g1 ++ Edges g2
  /\ length (Nodes (merge [g1; g2])) = length (Nodes g1) + length (Nodes g2)
  /\ length (Edges (merge [g1; g2])) = length (Edges g1) + length (Edges g2)
  /\ merge [] = {| Nodes := []; Edges := [] |} :> Graph.
Proof.
  assert (Hlen : forall (A : Type) (f : Graph -> list A) (l : list Graph),
             length (concat (map f l)) = list_sum (map (fun g => length (f g)) l)).
  { intros A f l. induction l as [|g l IH]; simpl; [reflexivity|].
    now rewrite length_app, IH. }
  repeat apply conj.
  - apply merge_Nodes.
  - apply merge_Edges.
  - rewrite merge_Nodes. apply Hlen.
  - rewrite merge_Edges. apply Hlen.
  - rewrite merge_Nodes. simpl. now rewrite app_nil_r.
  - rewrite merge_Edges. simpl. now rewrite app_nil_r.
  - rewrite merge_Nodes. simpl. now rewrite app_nil_r, length_app.
  - rewrite merge_Edges. simpl. now rewrite app_nil_r, length_app.
  - reflexivity.
Qed.

End MergeFacts.

(* ================================================================== *)
(** ** The coordinator *)

Section CoordinatorFacts.

Context {GuacNode GuacEdge : Type}.
Local Abbreviation Graph := (Assembler.Graph GuacNode GuacEdge).
Local Abbreviation World := (World GuacNode GuacEdge).
Local Abbreviation State := (State GuacNode GuacEdge).

Variable emitFunc : Document -> World -> World.
Variable numCollectors : Z.

Local Abbreviation step := (step emitFunc numCollectors).
Local Abbreviation run := (run emitFunc numCollectors).

(** *** Runs *)

Lemma run_app (sched1 sched2 : list Action) (s : State) :
  run (sched1 ++ sched2) s
  = match run sched1 s with
    | Some s' => run sched2 s'
    | None => None
    end.
Proof.
  revert s. induction sched1 as [|a sched1 IH]; intros s; simpl; [reflexivity|].
  destruct (step a s); [apply IH | reflexivity].
Qed.

Lemma run_cons (a : Action) (sched : list Action) (s : State) :
  run (a :: sched) s
  = match step a s with
    | Some s' => run sched s'
    | None => None
    end.
Proof. reflexivity. Qed.

Lemma step_select_doc (s : State) (d : Document) (rest : list Document) :
  pc s = WaitLoop -> panicked s = false -> docChan s = d :: rest ->
  step SelectDoc s = Some (on_doc emitFunc s d rest).
Proof. intros Hpc Hlive Hq. simpl. now rewrite Hlive, Hpc, Hq. Qed.

Lemma step_drain_cons (s : State) (d : Document) (rest : list Document) :
  pc s = DrainLoop -> panicked s = false -> docChan s = d :: rest ->
  step DrainTurn s = Some (on_doc emitFunc s d rest).
Proof. intros Hpc Hlive Hq. simpl. now rewrite Hlive, Hpc, Hq. Qed.

(** A property kept by every step holds along every run. *)
Lemma run_invariant (P : State -> Prop) :
  (forall a s s', P s -> step a s = Some s' -> P s') ->
  forall sched s s', P s -> run sched s = Some s' -> P s'.
Proof.
  intros Hstep sched. induction sched as [|a sched IH]; intros s s' Hs Hrun; simpl in Hrun.
  - now inversion Hrun; subst.
  - destruct (step a s) as [s1|] eqn:E; [|discriminate].
    eapply IH; [eapply Hstep; eassumption | exact Hrun].
Qed.

Lemma reachable_invariant (P : State -> Prop) :
  P (init GuacNode GuacEdge numCollectors) ->
  (forall a s s', P s -> step a s = Some s' -> P s') ->
  forall s, reachable emitFunc numCollectors s -> P s.
Proof.
  intros Hinit Hstep s [sched Hrun].
  eapply run_invariant; eassumption.
Qed.

(** *** The preview *)

Lemma log_and_emit_in_range (d : Document) (w : World) :
  10 <= cap (Blob d) -> log_and_emit emitFunc d w = Some (logged_emit emitFunc w d).
Proof.
  intros H. unfold log_and_emit, slice_to.
  apply Nat.leb_le in H. rewrite H. reflexivity.
Qed.

Lemma log_and_emit_out_of_range (d : Document) (w : World) :
  cap (Blob d) < 10 -> log_and_emit emitFunc d w = None.
Proof.
  intros H. unfold log_and_emit, slice_to.
  apply Nat.leb_gt in H. rewrite H. reflexivity.
Qed.

Lemma on_doc_in_range (s : State) (d : Document) (rest : list Document) :
  10 <= cap (Blob d) ->
  on_doc emitFunc s d rest
  = {| pc := pc s; panicked := false;
       docChan := rest; errChan := errChan s;
       collectorsDone := collectorsDone s; world := logged_emit emitFunc (world s) d;
       placed := placed s; emitted := emitted s ++ [d];
       observed := observed s; signalled := signalled s |}.
Proof.
  intros H. unfold on_doc. now rewrite log_and_emit_in_range.
Qed.

Lemma on_doc_out_of_range (s : State) (d : Document) (rest : list Document) :
  cap (Blob d) < 10 ->
  on_doc emitFunc s d rest
  = {| pc := pc s; panicked := true;
       docChan := rest; errChan := errChan s;
       collectorsDone := collectorsDone s; world := world s;
       placed := placed s; emitted := emitted s;
       observed := observed s; signalled := signalled s |}.
Proof.
  intros H. unfold on_doc. now rewrite log_and_emit_out_of_range.
Qed.

(** What a step can be, for proofs by cases on the action. *)
Lemma step_cases (a : Action) (s s' : State) :
  step a s = Some s' ->
  (exists p d, a = Send p d /\
      s' = {| pc := pc s; panicked := panicked s;
              docChan := docChan s ++ [d]; errChan := errChan s;
              collectorsDone := collectorsDone s; world := world s;
              placed := placed s ++ [d]; emitted := emitted s;
              observed := observed s; signalled := signalled s |})
  \/ (exists p e, a = Finish p e /\
      s' = {| pc := pc s; panicked := panicked s;
              docChan := docChan s; errChan := errChan s ++ [(p, e)];
              collectorsDone := collectorsDone s; world := world s;
              placed := placed s; emitted := emitted s;
              observed := observed s; signalled := signalled s ++ [p] |})
  \/ (exists d rest, (a = SelectDoc /\ pc s = WaitLoop \/ a = DrainTurn /\ pc s = DrainLoop)
      /\ panicked s = false /\ docChan s = d :: rest /\ s' = on_doc emitFunc s d rest)
  \/ (exists sig rest, a = SelectErr /\ pc s = WaitLoop
      /\ panicked s = false /\ errChan s = sig :: rest
      /\ s' = on_err numCollectors s sig rest)
  \/ (a = DrainTurn /\ pc s = DrainLoop /\ panicked s = false /\ docChan s = []
      /\ s' = {| pc := Returned; panicked := false;
                 docChan := docChan s; errChan := errChan s;
                 collectorsDone := collectorsDone s; world := world s;
                 placed := placed s; emitted := emitted s;
                 observed := observed s; signalled := signalled s |}).
Proof.
  destruct a as [p d | p e | | | ]; simpl; intros H.
  - left. exists p, d. split; [reflexivity | now inversion H].
  - right; left. exists p, e. split; [reflexivity | now inversion H].
  - destruct (panicked s) eqn:Hp; [discriminate|].
    destruct (pc s) eqn:Hpc; try discriminate.
    destruct (docChan s) as [|d rest] eqn:Hd; [discriminate|].
    right; right; left. exists d, rest. inversion H; subst. tauto.
  - destruct (panicked s) eqn:Hp; [discriminate|].
    destruct (pc s) eqn:Hpc; try discriminate.
    destruct (errChan s) as [|sig rest] eqn:He; [discriminate|].
    right; right; right; left. exists sig, rest. inversion H; subst. tauto.
  - destruct (panicked s) eqn:Hp; [discriminate|].
    destruct (pc s) eqn:Hpc; try discriminate.
    destruct (docChan s) as [|d rest] eqn:Hd; simpl in H.
    + right; right; right; right. inversion H; subst. tauto.
    + right; right; left. exists d, rest. inversion H; subst. tauto.
Qed.

(** *** Counting completion signals *)

Lemma wrap64_small (z : Z) : is_int z -> wrap64 z = z.
Proof.
  unfold is_int, int_min, int_max, wrap64. intros H.
  rewrite Z.mod_small; lia.
Qed.


Hypothesis numCollectors_is_count : (0 <= numCollectors <= int_max)%Z.

Lemma counting_init : counting numCollectors (init GuacNode GuacEdge numCollectors).
Proof.
  unfold counting, init, past_wait_loop; simpl.
  destruct (0 <? numCollectors)%Z eqn:E.
  - apply Z.ltb_lt in E. repeat split; [intros _; lia | discriminate].
  - apply Z.ltb_ge in E. repeat split; [discriminate | intros _; lia].
Qed.

Lemma on_err_counts (s : State) (sig : Signal) (rest : list Signal) :
  counting numCollectors s -> pc s = WaitLoop ->
  collectorsDone (on_err numCollectors s sig rest) = (collectorsDone s + 1)%Z
  /\ counting numCollectors (on_err numCollectors s sig rest).
Proof.
  intros (Hc & Hlt & Heq) Hpc.
  assert (Hin : (collectorsDone s < numCollectors)%Z).
  { apply Hlt. unfold past_wait_loop. now rewrite Hpc. }
  assert (Hadd : int_add (collectorsDone s) 1 = (collectorsDone s + 1)%Z).
  { unfold int_add. apply wrap64_small. unfold is_int, int_min, int_max in *. lia. }
  split; [exact Hadd|].
  unfold counting, past_wait_loop, on_err; simpl. rewrite Hadd.
  rewrite length_app; simpl.
  destruct (collectorsDone s + 1 <? numCollectors)%Z eqn:E.
  - apply Z.ltb_lt in E. repeat split; [lia | intros _; exact E | discriminate].
  - apply Z.ltb_ge in E. repeat split; [lia | discriminate | intros _; lia].
Qed.

Lemma on_doc_keeps_counting (s : State) (d : Document) (rest : list Document) :
  counting numCollectors s -> counting numCollectors (on_doc emitFunc s d rest).
Proof.
  unfold counting, past_wait_loop, on_doc.
  destruct (log_and_emit emitFunc d (world s)); simpl; tauto.
Qed.

Lemma step_keeps_counting (a : Action) (s s' : State) :
  counting numCollectors s -> step a s = Some s' -> counting numCollectors s'.
Proof.
  intros Hc Hstep.
  destruct (step_cases _ _ Hstep)
    as [(p & d & _ & ->) | [(p & e & _ & ->) | [(d & rest & _ & _ & _ & ->)
       | [(sig & rest & _ & Hpc & _ & _ & ->) | (_ & Hpc & _ & _ & ->)]]]].
  - exact Hc.
  - exact Hc.
  - now apply on_doc_keeps_counting.
  - now apply on_err_counts.
  - destruct Hc as (Hc & Hlt & Heq). unfold counting, past_wait_loop in *; simpl.
    rewrite Hpc in Heq. repeat split; [exact Hc | discriminate | intros _; now apply Heq].
Qed.

Lemma reachable_counting (s : State) :
  reachable emitFunc numCollectors s -> counting numCollectors s.
Proof.
  apply reachable_invariant; [exact counting_init | exact step_keeps_counting].
Qed.

(** C2: for every number of collectors, in every state the
    coordinator can reach, whatever the order of document receipts and
    completion signals, it has left the wait loop exactly when the number of
    completion signals received is [numCollectors]; the counter is that
    number; receiving a signal, with an error or nil, adds one to it, kills
    nothing and does not end the run, and the two cases differ in the log
    line only. *)
Theorem wait_loop_exits_iff_all_signals (s : State) :
  reachable emitFunc numCollectors s ->
  collectorsDone s = Z.of_nat (length (observed s))
  /\ (past_wait_loop s = true <-> Z.of_nat (length (observed s)) = numCollectors)
  /\ (forall p e rest,
        pc s = WaitLoop -> panicked s = false -> errChan s = (p, e) :: rest ->
        exists s',
          step SelectErr s = Some s'
          /\ collectorsDone s' = (collectorsDone s + 1)%Z
          /\ observed s' = observed s ++ [(p, e)]
          /\ panicked s' = false
          /\ pc s' <> Returned
          /\ (let nil' := on_err numCollectors s (p, None) rest in
              pc s' = pc nil'
              /\ panicked s' = panicked nil'
              /\ collectorsDone s' = collectorsDone nil'
              /\ docChan s' = docChan nil'
              /\ errChan s' = errChan nil'
              /\ emitted s' = emitted nil'
              /\ stored (world s') = stored (world nil'))).
Proof.
  intros Hreach.
  pose proof (reachable_counting Hreach) as Hcount.
  destruct Hcount as (Hc & Hlt & Heq).
  split; [exact Hc|]. split.
  - rewrite <- Hc. split; [exact Heq|].
    intros HN. destruct (past_wait_loop s) eqn:E; [reflexivity|].
    specialize (Hlt eq_refl). lia.
  - intros p e rest Hpc Hp He.
    exists (on_err numCollectors s (p, e) rest).
    assert (Hs : counting numCollectors s) by (repeat split; assumption).
    destruct (on_err_counts (p, e) rest Hs Hpc) as [Hadd _].
    split; [simpl; now rewrite Hp, Hpc, He|].
    split; [exact Hadd|].
    split; [reflexivity|].
    split; [reflexivity|].
    split; [unfold on_err; simpl;
            destruct (int_add (collectorsDone s) 1 <? numCollectors)%Z; discriminate|].
    unfold on_err; simpl. destruct e as [err|]; simpl; repeat split; reflexivity.
Qed.

(** *** Documents: first in, first out, each once *)


Lemma fifo_init : fifo (init GuacNode GuacEdge numCollectors).
Proof. split; simpl; [reflexivity | discriminate]. Qed.

Lemma previews_in_range_app (l1 l2 : list Document) :
  previews_in_range (l1 ++ l2) <-> previews_in_range l1 /\ previews_in_range l2.
Proof. apply Forall_app. Qed.

Lemma step_keeps_fifo (a : Action) (s s' : State) :
  fifo s -> step a s = Some s' -> fifo s'.
Proof.
  intros [Hf Hp] Hstep.
  destruct (step_cases _ _ Hstep)
    as [(p & d & _ & ->) | [(p & e & _ & ->) | [(d & rest & _ & Hlive & Hd & ->)
       | [(sig & rest & _ & _ & Hlive & _ & ->) | (_ & _ & Hlive & _ & ->)]]]].
  - split; simpl.
    + intros H. rewrite (Hf H). now rewrite app_assoc.
    + intros H Hr. apply previews_in_range_app in Hr. now apply (Hp H).
  - split; simpl; assumption.
  - specialize (Hf Hlive). rewrite Hd in Hf.
    destruct (le_lt_dec 10 (cap (Blob d))) as [Hin | Hout].
    + rewrite on_doc_in_range by exact Hin. split; simpl; [|discriminate].
      intros _. rewrite Hf. now rewrite <- app_assoc.
    + rewrite on_doc_out_of_range by exact Hout. split; simpl; [discriminate|].
      intros _ Hr. rewrite Hf in Hr.
      apply previews_in_range_app in Hr. destruct Hr as [_ Hr].
      inversion Hr; subst. lia.
  - split; simpl; [intros _; now apply Hf | discriminate].
  - split; simpl; [intros _; now apply Hf | discriminate].
Qed.

Lemma reachable_fifo (s : State) :
  reachable emitFunc numCollectors s -> fifo s.
Proof.
  apply reachable_invariant; [exact fifo_init | exact step_keeps_fifo].
Qed.

(** *** The drain loop *)

(** From the drain loop, with nothing sent meanwhile and every preview in
    range, one turn per buffered document and one more: the documents are
    passed to [emit] in channel order, the channel is empty, [Run] returns. *)
Lemma drain_emits_buffer_in_order (q : list Document) (s : State) :
  pc s = DrainLoop -> panicked s = false -> docChan s = q ->
  previews_in_range q ->
  run (repeat DrainTurn (S (length q))) s
  = Some {| pc := Returned; panicked := false;
            docChan := []; errChan := errChan s;
            collectorsDone := collectorsDone s;
            world := fold_left (logged_emit emitFunc) q (world s);
            placed := placed s; emitted := emitted s ++ q;
            observed := observed s; signalled := signalled s |}.
Proof.
  revert s. induction q as [|d q IH]; intros s Hpc Hlive Hq Hr.
  - simpl. rewrite Hlive, Hpc, Hq. simpl. now rewrite app_nil_r.
  - inversion Hr as [|? ? Hd Hr']; subst.
    change (repeat DrainTurn (S (length (d :: q))))
      with (DrainTurn :: repeat DrainTurn (S (length q))).
    rewrite run_cons, (step_drain_cons s Hpc Hlive Hq).
    rewrite on_doc_in_range by exact Hd.
    rewrite IH; [|exact Hpc|reflexivity|reflexivity|exact Hr'].
    simpl. now rewrite <- app_assoc.
Qed.

(** A preview out of range in the drain loop: the coordinator dies there,
    that document and those behind it are never passed to [emit]. *)
Lemma drain_stops_at_short_preview (d : Document) (rest : list Document) (s : State) :
  pc s = DrainLoop -> panicked s = false -> docChan s = d :: rest ->
  cap (Blob d) < 10 ->
  exists s',
    step DrainTurn s = Some s'
    /\ panicked s' = true /\ emitted s' = emitted s /\ world s' = world s
    /\ docChan s' = rest
    /\ step DrainTurn s' = None /\ step SelectDoc s' = None /\ step SelectErr s' = None.
Proof.
  intros Hpc Hlive Hq Hout.
  exists (on_doc emitFunc s d rest).
  split; [simpl; now rewrite Hlive, Hpc, Hq|].
  rewrite on_doc_out_of_range by exact Hout. simpl. repeat split; reflexivity.
Qed.

(** *** Collectors that keep their side of the contract *)

Local Abbreviation allowed := (@allowed GuacNode GuacEdge numCollectors).
Local Abbreviation disciplined := (disciplined emitFunc numCollectors).

Lemma disciplined_invariant (P : State -> Prop) :
  (forall a s s', P s -> allowed a s = true -> step a s = Some s' -> P s') ->
  forall sched s s',
    P s -> disciplined sched s = true -> run sched s = Some s' -> P s'.
Proof.
  intros Hstep sched. induction sched as [|a sched IH]; intros s s' Hs Hd Hrun;
    simpl in Hrun, Hd.
  - now inversion Hrun; subst.
  - apply andb_prop in Hd. destruct Hd as [Ha Hd].
    destruct (step a s) as [s1|] eqn:E; [|discriminate].
    eapply IH; [eapply Hstep; eassumption | exact Hd | exact Hrun].
Qed.


Lemma not_existsb_eqb (p : nat) (l : list nat) :
  existsb (Nat.eqb p) l = false <-> ~ In p l.
Proof.
  split.
  - intros H Hin. assert (existsb (Nat.eqb p) l = true); [|congruence].
    apply existsb_exists. exists p. split; [exact Hin | apply Nat.eqb_refl].
  - intros H. destruct (existsb (Nat.eqb p) l) eqn:E; [|reflexivity].
    apply existsb_exists in E. destruct E as (x & Hin & Hx).
    apply Nat.eqb_eq in Hx. subst x. contradiction.
Qed.

Lemma step_keeps_signals (a : Action) (s s' : State) :
  signals_ok numCollectors s -> allowed a s = true -> step a s = Some s' -> signals_ok numCollectors s'.
Proof.
  intros (Hsig & Hnd & Hlt) Ha Hstep.
  destruct (step_cases _ _ Hstep)
    as [(p & d & _ & ->) | [(p & e & -> & ->) | [(d & rest & _ & _ & _ & ->)
       | [(sig & rest & _ & _ & _ & He & ->) | (_ & _ & _ & _ & ->)]]]].
  - repeat split; assumption.
  - simpl in Ha. apply andb_prop in Ha. destruct Ha as [Hp Hnew].
    apply Z.ltb_lt in Hp. apply negb_true_iff in Hnew. apply not_existsb_eqb in Hnew.
    unfold signals_ok; simpl. repeat split.
    + rewrite map_app, app_assoc. f_equal. exact Hsig.
    + apply NoDup_app; [exact Hnd | constructor; [intros []|constructor] |].
      intros x Hx [<- | []]. contradiction.
    + apply Forall_app. split; [exact Hlt | constructor; [exact Hp | constructor]].
  - unfold signals_ok, on_doc.
    destruct (log_and_emit emitFunc d (world s)); simpl; repeat split; assumption.
  - unfold signals_ok; simpl. rewrite He in Hsig. simpl in Hsig.
    repeat split; [|assumption|assumption].
    rewrite map_app, <- app_assoc. exact Hsig.
  - repeat split; assumption.
Qed.

(** Once out of the wait loop every collector's signal has been received:
    [numCollectors] distinct collectors out of [numCollectors]. *)
Lemma past_wait_loop_all_observed (s : State) :
  counting numCollectors s -> signals_ok numCollectors s -> past_wait_loop s = true ->
  forall p, (Z.of_nat p < numCollectors)%Z -> In p (map fst (observed s)).
Proof.
  intros (Hc & _ & Heq) (Hsig & Hnd & Hlt) Hpast p Hp.
  specialize (Heq Hpast).
  rewrite <- Hsig in Hnd, Hlt.
  apply NoDup_app_remove_r in Hnd.
  apply Forall_app in Hlt. destruct Hlt as [Hlt _].
  assert (Hincl : incl (seq 0 (Z.to_nat numCollectors)) (map fst (observed s))).
  { apply NoDup_length_incl.
    - exact Hnd.
    - rewrite length_seq, length_map. unfold Signal in *. lia.
    - intros x Hx. rewrite Forall_forall in Hlt. specialize (Hlt x Hx).
      apply in_seq. lia. }
  apply Hincl. apply in_seq. lia.
Qed.


Lemma well_run_init : well_run numCollectors (init GuacNode GuacEdge numCollectors).
Proof.
  split; [exact counting_init|]. split.
  - repeat split; simpl; constructor.
  - unfold closed, init; simpl. destruct (0 <? numCollectors)%Z; discriminate.
Qed.

Lemma step_keeps_well_run (a : Action) (s s' : State) :
  well_run numCollectors s -> allowed a s = true -> step a s = Some s' -> well_run numCollectors s'.
Proof.
  intros (Hc & Hs & Hcl) Ha Hstep.
  split; [eapply step_keeps_counting; eassumption|].
  split; [eapply step_keeps_signals; eassumption|].
  destruct (step_cases _ _ Hstep)
    as [(p & d & -> & ->) | [(p & e & _ & ->) | [(d & rest & Hpc & _ & _ & ->)
       | [(sig & rest & _ & _ & _ & _ & ->) | (_ & _ & _ & Hempty & ->)]]]];
    unfold closed in *; simpl.
  - intros Hret. exfalso.
    simpl in Ha. apply andb_prop in Ha. destruct Ha as [Hp Hnew].
    apply Z.ltb_lt in Hp. apply negb_true_iff in Hnew. apply not_existsb_eqb in Hnew.
    apply Hnew. apply past_wait_loop_all_observed; try assumption.
    unfold past_wait_loop. now rewrite Hret.
  - exact Hcl.
  - unfold on_doc. destruct (log_and_emit emitFunc d (world s)); simpl;
      intros Hret; destruct Hpc as [[_ Hpc] | [_ Hpc]]; congruence.
  - destruct (int_add (collectorsDone s) 1 <? numCollectors)%Z; discriminate.
  - intros _. split; [reflexivity | exact Hempty].
Qed.

(** With collectors that send their signal once and no document after it
    was received: along every run the documents sent are, in order, those
    passed to [emit] and those still buffered; when [Run] has returned every
    document sent was passed to [emit], once, in the order sent; and the
    coordinator only dies on a preview out of range. *)
Lemma documents_emitted_exactly_once (sched : list Action) (s : State) :
  disciplined sched (init GuacNode GuacEdge numCollectors) = true ->
  run sched (init GuacNode GuacEdge numCollectors) = Some s ->
  (panicked s = false -> placed s = emitted s ++ docChan s)
  /\ (pc s = Returned -> emitted s = placed s)
  /\ (previews_in_range (placed s) -> panicked s = false).
Proof.
  intros Hd Hrun.
  assert (Hf : fifo s) by (apply reachable_fifo; now exists sched).
  assert (Hw : well_run numCollectors s).
  { eapply disciplined_invariant;
      [exact step_keeps_well_run | exact well_run_init | exact Hd | exact Hrun]. }
  destruct Hf as [Hf Hp]. destruct Hw as (_ & _ & Hcl).
  split; [exact Hf|]. split.
  - intros Hret. destruct (Hcl Hret) as [Hlive Hempty].
    rewrite (Hf Hlive), Hempty. now rewrite app_nil_r.
  - intros Hr. destruct (panicked s) eqn:E; [|reflexivity].
    exfalso. now apply Hp.
Qed.

(** *** The coordinator comes to an end *)

(** In the wait loop with the missing signals all waiting in [errChan]:
    taking them one after the other leads to the drain loop, the documents
    untouched. *)
Lemma wait_loop_consumes_signals (q : list Signal) (s : State) :
  errChan s = q -> pc s = WaitLoop -> panicked s = false ->
  counting numCollectors s ->
  (collectorsDone s + Z.of_nat (length q) = numCollectors)%Z ->
  exists s',
    run (repeat SelectErr (length q)) s = Some s'
    /\ pc s' = DrainLoop /\ panicked s' = false
    /\ docChan s' = docChan s /\ placed s' = placed s /\ emitted s' = emitted s.
Proof.
  revert s. induction q as [|sig rest IH]; intros s Hq Hpc Hlive Hc Hsum.
  - exfalso. destruct Hc as (_ & Hlt & _).
    assert (collectorsDone s < numCollectors)%Z
      by (apply Hlt; unfold past_wait_loop; now rewrite Hpc).
    simpl in Hsum. lia.
  - destruct (on_err_counts sig rest Hc Hpc) as [Hadd Hc1].
    assert (Hstep : step SelectErr s = Some (on_err numCollectors s sig rest))
      by (simpl; now rewrite Hlive, Hpc, Hq).
    change (repeat SelectErr (length (sig :: rest)))
      with (SelectErr :: repeat SelectErr (length rest)).
    rewrite run_cons, Hstep.
    destruct (pc (on_err numCollectors s sig rest)) eqn:Hpc1.
    + destruct (IH (on_err numCollectors s sig rest)) as (s' & Hrun & Hrest);
        [reflexivity | exact Hpc1 | reflexivity | exact Hc1 | |].
      * rewrite Hadd. simpl length in Hsum. lia.
      * exists s'. split; [exact Hrun | exact Hrest].
    + destruct Hc1 as (_ & _ & Heq).
      assert (Hfull : collectorsDone (on_err numCollectors s sig rest) = numCollectors)
        by (apply Heq; unfold past_wait_loop; now rewrite Hpc1).
      rewrite Hadd in Hfull. simpl length in Hsum.
      assert (Hnil : rest = []) by (destruct rest; [reflexivity | simpl in Hsum; lia]).
      subst rest. simpl. eexists. split; [reflexivity|].
      split; [exact Hpc1|]. repeat split; reflexivity.
    + exfalso. unfold on_err in Hpc1; simpl in Hpc1.
      destruct (int_add (collectorsDone s) 1 <? numCollectors)%Z; discriminate.
Qed.

(** Once every collector has sent its signal and nothing more is sent, the
    coordinator, left to itself, returns: it takes the signals, drains the
    channel, and has then passed every document sent to [emit], provided
    every preview is in range. *)
Lemma coordinator_returns_once_all_signalled (s : State) :
  pc s = WaitLoop -> panicked s = false ->
  counting numCollectors s -> fifo s ->
  (collectorsDone s + Z.of_nat (length (errChan s)) = numCollectors)%Z ->
  previews_in_range (docChan s) ->
  exists s',
    run (repeat SelectErr (length (errChan s))
         ++ repeat DrainTurn (S (length (docChan s)))) s = Some s'
    /\ pc s' = Returned /\ panicked s' = false
    /\ docChan s' = [] /\ emitted s' = placed s /\ placed s' = placed s.
Proof.
  intros Hpc Hlive Hc [Hf _] Hsum Hr.
  destruct (wait_loop_consumes_signals eq_refl Hpc Hlive Hc Hsum)
    as (s1 & Hrun1 & Hpc1 & Hlive1 & Hd1 & Hp1 & He1).
  rewrite run_app, Hrun1. rewrite <- Hd1.
  rewrite (@drain_emits_buffer_in_order (docChan s1) s1 Hpc1 Hlive1 eq_refl)
    by (now rewrite Hd1).
  eexists. split; [reflexivity|]. simpl.
  rewrite He1, Hd1, Hp1, (Hf Hlive). repeat split; reflexivity.
Qed.

(** *** The log preview *)

(** C9 (amended): the preview [d.Blob[:10]] is taken without a
    check in both loops, and it is the capacity of [Blob], not its length,
    that decides: for every received document whose [Blob] has a capacity
    below 10 the slice expression is out of range, the coordinator dies and
    the document never reaches [emit]; with a capacity of 10 or more the
    document is logged and passed to [emit], also when it is shorter than 10
    bytes. *)
Theorem preview_fails_iff_capacity_below_10
    (s : State) (d : Document) (rest : list Document) :
  panicked s = false -> docChan s = d :: rest ->
  let s' := on_doc emitFunc s d rest in
  (pc s = WaitLoop -> step SelectDoc s = Some s')
  /\ (pc s = DrainLoop -> step DrainTurn s = Some s')
  /\ (panicked s' = true <-> cap (Blob d) < 10)
  /\ (cap (Blob d) < 10 ->
        emitted s' = emitted s /\ world s' = world s
        /\ step SelectDoc s' = None /\ step SelectErr s' = None
        /\ step DrainTurn s' = None)
  /\ (10 <= cap (Blob d) ->
        emitted s' = emitted s ++ [d]
        /\ world s' = logged_emit emitFunc (world s) d).
Proof.
  intros Hlive Hq s'.
  split; [intros Hpc; now apply step_select_doc|].
  split; [intros Hpc; now apply step_drain_cons|].
  subst s'.
  destruct (le_lt_dec 10 (cap (Blob d))) as [Hin | Hout].
  - rewrite on_doc_in_range by exact Hin. simpl.
    split; [split; [discriminate | lia]|].
    split; [lia|]. intros _. split; reflexivity.
  - rewrite on_doc_out_of_range by exact Hout. simpl.
    split; [split; [intros _; exact Hout | reflexivity]|].
    split; [|lia]. intros _. repeat split; reflexivity.
Qed.

End CoordinatorFacts.

Lemma wait_loop_exits_iff_all_signals_witness :
  let sched := [Send 0 Sample.doc_long; Finish 0 (Some "walk failed");
                SelectDoc; Finish 1 None; SelectErr; SelectErr] in
  exists s,
    run Sample.pipeline 2 sched (init _ _ 2) = Some s
    /\ (past_wait_loop s = true <-> Z.of_nat (length (observed s)) = 2%Z).
Proof.
  intros sched.
  assert (Hrange : (0 <= 2 <= int_max)%Z) by (unfold int_max; lia).
  destruct (run Sample.pipeline 2 sched (init _ _ 2)) as [s|] eqn:E; [|discriminate].
  exists s. split; [reflexivity|].
  apply (@wait_loop_exits_iff_all_signals _ _ Sample.pipeline 2 Hrange s).
  exists sched. exact E.
Defined.

Lemma preview_fails_iff_capacity_below_10_witness :
  panicked (Sample.waiting_on Sample.doc_short) = false
  /\ docChan (Sample.waiting_on Sample.doc_short) = [Sample.doc_short]
  /\ (panicked (on_doc Sample.pipeline (Sample.waiting_on Sample.doc_short)
                   Sample.doc_short []) = true
      <-> cap (Blob Sample.doc_short) < 10).
Proof.
  split; [reflexivity|]. split; [reflexivity|].
  exact (proj1 (proj2 (proj2
    (@preview_fails_iff_capacity_below_10 _ _ Sample.pipeline 1
       (Sample.waiting_on Sample.doc_short) Sample.doc_short [] eq_refl eq_refl)))).
Defined.

(** C9, as stated, fails: a three-byte payload at the start of a
    512-byte array has fewer than 10 bytes, yet its preview is in range; the
    document is logged and passed to [emit], in the wait loop and in the
    drain loop alike. *)
Lemma short_blob_with_capacity_is_emitted :
  len (Blob Sample.doc_short_roomy) = 3
  /\ cap (Blob Sample.doc_short_roomy) = 512
  /\ Sample.outcome
       (run Sample.pipeline 1
          (Sample.one_document Sample.doc_short_roomy ++ [SelectDoc]) (init _ _ 1))
     = Some {| Sample.at_pc := WaitLoop; Sample.died := false;
               Sample.were_sent := [Sample.doc_short_roomy];
               Sample.were_emitted := [Sample.doc_short_roomy];
               Sample.are_left := [] |}
  /\ Sample.outcome
       (run Sample.pipeline 1
          (Sample.one_document Sample.doc_short_roomy ++ [SelectErr; DrainTurn; DrainTurn])
          (init _ _ 1))
     = Some {| Sample.at_pc := Returned; Sample.died := false;
               Sample.were_sent := [Sample.doc_short_roomy];
               Sample.were_emitted := [Sample.doc_short_roomy];
               Sample.are_left := [] |}.
Proof. repeat split; vm_compute; reflexivity. Qed.

(** C1 fails on the code: a collector sends one document whose
    [Blob] is the three bytes ["abc"] (capacity three) and then its
    completion signal.  Whichever way the coordinator takes them, the
    preview [d.Blob[:10]] is out of range: the coordinator dies, the document
    was placed on the channel and is never passed to [emit]. *)
Theorem short_document_is_never_emitted :
  disciplined Sample.pipeline 1
    (Sample.one_document Sample.doc_short ++ [SelectDoc]) (init _ _ 1) = true
  /\ Sample.outcome
       (run Sample.pipeline 1
          (Sample.one_document Sample.doc_short ++ [SelectDoc]) (init _ _ 1))
     = Some {| Sample.at_pc := WaitLoop; Sample.died := true;
               Sample.were_sent := [Sample.doc_short];
               Sample.were_emitted := []; Sample.are_left := [] |}
  /\ Sample.outcome
       (run Sample.pipeline 1
          (Sample.one_document Sample.doc_short ++ [SelectErr; DrainTurn]) (init _ _ 1))
     = Some {| Sample.at_pc := DrainLoop; Sample.died := true;
               Sample.were_sent := [Sample.doc_short];
               Sample.were_emitted := []; Sample.are_left := [] |}
  /\ run Sample.pipeline 1
       (Sample.one_document Sample.doc_short ++ [SelectDoc; SelectDoc]) (init _ _ 1) = None
  /\ run Sample.pipeline 1
       (Sample.one_document Sample.doc_short ++ [SelectDoc; SelectErr]) (init _ _ 1) = None
  /\ run Sample.pipeline 1
       (Sample.one_document Sample.doc_short ++ [SelectDoc; DrainTurn]) (init _ _ 1) = None.
Proof. repeat split; vm_compute; reflexivity. Qed.

(** C3 fails on the code: two documents are buffered when the
    wait loop exits, the first with a [Blob] of capacity three.  The first
    turn of the drain loop dies on its preview: neither document is passed
    to [emit], the second is left in the channel, no further turn is taken
    and [Run] does not return. *)
Theorem drain_dies_on_short_document :
  Sample.outcome
    (run Sample.pipeline 1
       (Sample.two_documents Sample.doc_short Sample.doc_long ++ [SelectErr])
       (init _ _ 1))
  = Some {| Sample.at_pc := DrainLoop; Sample.died := false;
            Sample.were_sent := [Sample.doc_short; Sample.doc_long];
            Sample.were_emitted := [];
            Sample.are_left := [Sample.doc_short; Sample.doc_long] |}
  /\ Sample.outcome
       (run Sample.pipeline 1
          (Sample.two_documents Sample.doc_short Sample.doc_long ++ [SelectErr; DrainTurn])
          (init _ _ 1))
     = Some {| Sample.at_pc := DrainLoop; Sample.died := true;
               Sample.were_sent := [Sample.doc_short; Sample.doc_long];
               Sample.were_emitted := [];
               Sample.are_left := [Sample.doc_long] |}
  /\ run Sample.pipeline 1
       (Sample.two_documents Sample.doc_short Sample.doc_long
        ++ [SelectErr; DrainTurn; DrainTurn])
       (init _ _ 1)
     = None
  /\ Sample.outcome
       (run Sample.pipeline 1
          (Sample.two_documents Sample.doc_long Sample.doc_bad
           ++ [SelectErr; DrainTurn; DrainTurn; DrainTurn])
          (init _ _ 1))
     = Some {| Sample.at_pc := Returned; Sample.died := false;
               Sample.were_sent := [Sample.doc_long; Sample.doc_bad];
               Sample.were_emitted := [Sample.doc_long; Sample.doc_bad];
               Sample.are_left := [] |}.
Proof. repeat split; vm_compute; reflexivity. Qed.

(* ================================================================== *)
(** ** The pipeline *)

Section EmitIndependence.

Context {GuacNode GuacEdge : Type}.
Local Abbreviation World := (World GuacNode GuacEdge).
Local Abbreviation State := (State GuacNode GuacEdge).

Variables emit1 emit2 : Document -> World -> World.
Variable numCollectors : Z.

(** What [emit] does with a document has no part in what the coordinator
    does next: two pipelines take the same steps through the same states,
    but for the world. *)
Lemma step_control_independent_of_emit (a : Action) (s1 s2 : State) :
  control s1 = control s2 ->
  option_map (@control _ _) (step emit1 numCollectors a s1)
  = option_map (@control _ _) (step emit2 numCollectors a s2).
Proof.
  destruct s1 as [pc1 pan1 dc1 ec1 cd1 w1 pl1 em1 ob1 sg1].
  destruct s2 as [pc2 pan2 dc2 ec2 cd2 w2 pl2 em2 ob2 sg2].
  unfold control; simpl. intros H. inversion H; subst.
  destruct a as [p d | p e | | | ]; simpl; try reflexivity.
  - destruct pan2, pc2, dc2 as [|d rest]; simpl; try reflexivity.
    unfold on_doc, log_and_emit; simpl. destruct (slice_to (Blob d) 10); reflexivity.
  - destruct pan2, pc2, ec2 as [|[p [err|]] rest]; reflexivity.
  - destruct pan2, pc2, dc2 as [|d rest]; simpl; try reflexivity.
    unfold on_doc, log_and_emit; simpl. destruct (slice_to (Blob d) 10); reflexivity.
Qed.

Lemma run_control_independent_of_emit (sched : list Action) (s1 s2 : State) :
  control s1 = control s2 ->
  option_map (@control _ _) (run emit1 numCollectors sched s1)
  = option_map (@control _ _) (run emit2 numCollectors sched s2).
Proof.
  revert s1 s2. induction sched as [|a sched IH]; intros s1 s2 H; simpl.
  - now rewrite H.
  - pose proof (step_control_independent_of_emit a H) as Hstep.
    destruct (step emit1 numCollectors a s1) as [s1'|],
             (step emit2 numCollectors a s2) as [s2'|]; simpl in Hstep;
      try discriminate; [|reflexivity].
    apply IH. congruence.
Qed.

End EmitIndependence.

Section PipelineFacts.

Context {GuacNode GuacEdge DocumentTree Client : Type}.
Local Abbreviation Graph := (Assembler.Graph GuacNode GuacEdge).
Local Abbreviation World := (World GuacNode GuacEdge).
Local Abbreviation State := (State GuacNode GuacEdge).

Variable Process : Document -> result DocumentTree.
Variable ParseDocumentTree : DocumentTree -> result (list Graph).
Variable NewGraphClient : string -> AuthToken -> result Client.
Variable StoreGraph_err : Graph -> Client -> list Graph -> option error.

(** The pipeline [Run] builds, stage by stage. *)
Lemma Run_emit_unfold (opts : options) (e : Document -> World -> World) :
  Run_emit Process ParseDocumentTree NewGraphClient StoreGraph_err opts = Some e ->
  exists client,
    NewGraphClient (dbAddr opts) (getAssembler_authToken opts) = Ok client
    /\ forall d w,
        e d w =
        match Process d with
        | Err err => log w (Errorf_unable_to_process err (Format d) (DocType d))
        | Ok docTree =>
            match ParseDocumentTree docTree with
            | Err err => log w (Errorf_unable_to_ingest err)
            | Ok graphs =>
                let w' := {| stored := stored w ++ [merge graphs]; logged := logged w |} in
                match StoreGraph_err (merge graphs) client (stored w) with
                | Some err => log w' (Errorf_unable_to_assemble err)
                | None => w'
                end
            end
        end.
Proof.
  unfold Run_emit, getProcessor, getIngestor, getAssembler.
  destruct (NewGraphClient (dbAddr opts) (getAssembler_authToken opts)) as [client|err] eqn:E;
    [|discriminate].
  intros H. inversion H; subst. exists client. split; [reflexivity|].
  intros d w. unfold emit, StoreGraph.
  destruct (Process d) as [docTree|err]; [|reflexivity].
  destruct (ParseDocumentTree docTree) as [graphs|err]; [|reflexivity].
  destruct (StoreGraph_err (merge graphs) client (stored w)); reflexivity.
Qed.

(** What one call of the pipeline writes to the store. *)
Lemma stored_emit (opts : options) (e : Document -> World -> World) (d : Document) (w : World) :
  Run_emit Process ParseDocumentTree NewGraphClient StoreGraph_err opts = Some e ->
  stored (e d w) = stored w ++ store_writes Process ParseDocumentTree [d].
Proof.
  intros He. destruct (Run_emit_unfold _ He) as (client & _ & Hemit).
  rewrite Hemit. unfold store_writes, ingested; simpl.
  destruct (Process d) as [docTree|err]; simpl; [|now rewrite app_nil_r].
  destruct (ParseDocumentTree docTree) as [graphs|err]; simpl; [|now rewrite app_nil_r].
  destruct (StoreGraph_err (merge graphs) client (stored w)); reflexivity.
Qed.

Lemma store_writes_app (ds1 ds2 : list Document) :
  store_writes Process ParseDocumentTree (ds1 ++ ds2)
  = store_writes Process ParseDocumentTree ds1 ++ store_writes Process ParseDocumentTree ds2.
Proof. unfold store_writes. apply flat_map_app. Qed.

(** C5: for every document, when [Process], the ingestor or the
    assembler fails on it, [emit] logs that error and returns: nothing is
    stored when [Process] or the ingestor fails, and [emit] gives no error
    back to the coordinator.  The coordinator takes the same steps whatever
    the pipeline does with a document, so the next document in the channel
    is received, logged and passed to [emit] as after a success. *)
Theorem stage_failure_is_contained
    (opts : options) (e : Document -> World -> World) (client : Client) :
  Run_emit Process ParseDocumentTree NewGraphClient StoreGraph_err opts = Some e ->
  NewGraphClient (dbAddr opts) (getAssembler_authToken opts) = Ok client ->
  (forall d w err,
      Process d = Err err ->
      e d w = log w (Errorf_unable_to_process err (Format d) (DocType d)))
  /\ (forall d w docTree err,
        Process d = Ok docTree -> ParseDocumentTree docTree = Err err ->
        e d w = log w (Errorf_unable_to_ingest err))
  /\ (forall d w docTree graphs err,
        Process d = Ok docTree -> ParseDocumentTree docTree = Ok graphs ->
        StoreGraph_err (merge graphs) client (stored w) = Some err ->
        e d w = log {| stored := stored w ++ [merge graphs]; logged := logged w |}
                    (Errorf_unable_to_assemble err))
  /\ (forall (e' : Document -> World -> World) numCollectors sched (s : State),
        option_map (@control _ _) (run e numCollectors sched s)
        = option_map (@control _ _) (run e' numCollectors sched s))
  /\ (forall numCollectors (s : State) d d' rest,
        panicked s = false -> docChan s = d :: d' :: rest ->
        10 <= cap (Blob d) -> 10 <= cap (Blob d') ->
        forall turn,
          (turn = SelectDoc /\ pc s = WaitLoop) \/ (turn = DrainTurn /\ pc s = DrainLoop) ->
          exists s2,
            run e numCollectors [turn; turn] s = Some s2
            /\ emitted s2 = emitted s ++ [d; d']
            /\ world s2 = logged_emit e (logged_emit e (world s) d) d'
            /\ panicked s2 = false /\ pc s2 = pc s /\ docChan s2 = rest).
Proof.
  intros He Hclient.
  destruct (Run_emit_unfold _ He) as (client' & Hclient' & Hemit).
  rewrite Hclient in Hclient'. inversion Hclient'; subst client'.
  repeat apply conj.
  - intros d w err HP. rewrite Hemit, HP. reflexivity.
  - intros d w docTree err HP HI. rewrite Hemit, HP, HI. reflexivity.
  - intros d w docTree graphs err HP HI HS. rewrite Hemit, HP, HI. simpl.
    rewrite HS. reflexivity.
  - intros e' numCollectors sched s.
    now apply run_control_independent_of_emit.
  - intros numCollectors s d d' rest Hlive Hq Hd Hd' turn Hturn.
    assert (Hfirst : step e numCollectors turn s = Some (on_doc e s d (d' :: rest))).
    { destruct Hturn as [[-> Hpc] | [-> Hpc]];
        [now apply step_select_doc | now apply step_drain_cons]. }
    rewrite on_doc_in_range in Hfirst by exact Hd.
    match type of Hfirst with _ = Some ?s1 =>
      assert (Hsecond : step e numCollectors turn s1 = Some (on_doc e s1 d' rest))
    end.
    { destruct Hturn as [[-> Hpc] | [-> Hpc]];
        [apply step_select_doc | apply step_drain_cons]; simpl; auto. }
    rewrite on_doc_in_range in Hsecond by exact Hd'.
    eexists. split.
    + rewrite run_cons, Hfirst, run_cons, Hsecond. reflexivity.
    + simpl. rewrite <- app_assoc. repeat split; reflexivity.
Qed.

(** C10: in every call of [emit] where [Process] and the ingestor
    both succeed, [StoreGraph] is called once, with the merge of the graphs
    the ingestor returned for that document; for an empty list of graphs it
    is called with the graph of no node and no edge; when one of the two
    fails it is not called.  So a run writes to the store once per
    successfully ingested document, in the order the documents were passed
    to [emit], not once for the run. *)
Theorem emit_stores_merged_graph_once
    (opts : options) (e : Document -> World -> World) :
  Run_emit Process ParseDocumentTree NewGraphClient StoreGraph_err opts = Some e ->
  (forall d w graphs,
      ingested Process ParseDocumentTree d = Some graphs ->
      stored (e d w) = stored w ++ [merge graphs])
  /\ (forall d w,
        ingested Process ParseDocumentTree d = Some [] ->
        stored (e d w) = stored w ++ [{| Nodes := []; Edges := [] |}])
  /\ (forall d w,
        ingested Process ParseDocumentTree d = None -> stored (e d w) = stored w)
  /\ (forall ds w,
        stored (fold_left (fun w d => e d w) ds w)
        = stored w ++ store_writes Process ParseDocumentTree ds)
  /\ (forall ds,
        length (store_writes Process ParseDocumentTree ds)
        = length (filter (fun d => match ingested Process ParseDocumentTree d with
                                   | Some _ => true
                                   | None => false
                                   end) ds))
  /\ (forall numCollectors (s : State),
        reachable e numCollectors s ->
        stored (world s) = store_writes Process ParseDocumentTree (emitted s)).
Proof.
  intros He.
  assert (Hone : forall d w graphs,
             ingested Process ParseDocumentTree d = Some graphs ->
             stored (e d w) = stored w ++ [merge graphs]).
  { intros d w graphs Hi. rewrite (@stored_emit opts e d w He).
    unfold store_writes; simpl. rewrite Hi. reflexivity. }
  repeat apply conj.
  - exact Hone.
  - intros d w Hi. now rewrite (Hone d w [] Hi).
  - intros d w Hi. rewrite (@stored_emit opts e d w He).
    unfold store_writes; simpl. rewrite Hi. simpl. now rewrite app_nil_r.
  - intros ds. induction ds as [|d ds IH]; intros w; simpl.
    + now rewrite app_nil_r.
    + rewrite IH, (@stored_emit opts e d w He), <- app_assoc. f_equal.
      unfold store_writes; simpl. now rewrite app_nil_r.
  - intros ds. unfold store_writes. induction ds as [|d ds IH]; simpl; [reflexivity|].
    rewrite length_app, IH.
    destruct (ingested Process ParseDocumentTree d); reflexivity.
  - intros numCollectors.
    apply (@reachable_invariant _ _ e numCollectors
             (fun s => stored (world s)
                       = store_writes Process ParseDocumentTree (emitted s))).
    + reflexivity.
    + intros a s s' Hs Hstep.
      destruct (step_cases _ _ _ _ Hstep)
        as [(p & d & _ & ->) | [(p & err & _ & ->) | [(d & rest & _ & _ & _ & ->)
           | [(sig & rest & _ & _ & _ & _ & ->) | (_ & _ & _ & _ & ->)]]]];
        simpl; try exact Hs.
      * unfold on_doc, log_and_emit. destruct (slice_to (Blob d) 10); simpl; [|exact Hs].
        rewrite (@stored_emit opts e d _ He), store_writes_app. simpl. now rewrite Hs.
      * destruct (snd sig); simpl; exact Hs.
Qed.

End PipelineFacts.

Lemma stage_failure_is_contained_witness :
  Run_emit Sample.Process Sample.ParseDocumentTree Sample.NewGraphClient
    Sample.StoreGraph_err Sample.opts_alice = Some Sample.pipeline
  /\ Sample.Process Sample.doc_bad = Err "unsupported document"
  /\ forall w,
      Sample.pipeline Sample.doc_bad w
      = log w (Errorf_unable_to_process "unsupported document" "UNKNOWN" "UNKNOWN").
Proof.
  split; [reflexivity|]. split; [reflexivity|].
  intros w.
  exact (proj1 (@stage_failure_is_contained _ _ _ _
                  Sample.Process Sample.ParseDocumentTree Sample.NewGraphClient
                  Sample.StoreGraph_err Sample.opts_alice Sample.pipeline
                  (default_dbAddr, getAssembler_authToken Sample.opts_alice)
                  eq_refl eq_refl)
           Sample.doc_bad w "unsupported document" eq_refl).
Defined.

Lemma emit_stores_merged_graph_once_witness :
  Run_emit Sample.Process Sample.ParseDocumentTree Sample.NewGraphClient
    Sample.StoreGraph_err Sample.opts_alice = Some Sample.pipeline
  /\ ingested Sample.Process Sample.ParseDocumentTree Sample.doc_long
     = Some [ {| Nodes := ["SPDX"]; Edges := [] |};
              {| Nodes := ["TAGVALUE"]; Edges := [("SPDX", "TAGVALUE")] |} ]
  /\ stored (Sample.pipeline Sample.doc_long (empty_World _ _))
     = [ {| Nodes := ["SPDX"; "TAGVALUE"]; Edges := [("SPDX", "TAGVALUE")] |} ].
Proof.
  split; [reflexivity|]. split; [reflexivity|].
  exact (proj1 (@emit_stores_merged_graph_once _ _ _ _
                  Sample.Process Sample.ParseDocumentTree Sample.NewGraphClient
                  Sample.StoreGraph_err Sample.opts_alice Sample.pipeline eq_refl)
           Sample.doc_long (empty_World _ _) _ eq_refl).
Defined.

(* ================================================================== *)
(** * Further properties *)

(** ** More on validateFlags *)

Lemma strings_Split_no_sep (s : string) (sep : ascii) :
  strings_Count s sep = 0 -> strings_Split s sep = [s].
Proof.
  induction s as [|a s IH]; simpl; [reflexivity|].
  destruct (Ascii.eqb a sep); simpl; [discriminate|].
  intros H. now rewrite (IH H).
Qed.

Lemma strings_Split_app (u rest : string) (sep : ascii) :
  strings_Count u sep = 0 ->
  strings_Split (u ++ String sep rest)%string sep = u :: strings_Split rest sep.
Proof.
  induction u as [|a u IH]; simpl.
  - intros _. now rewrite Ascii.eqb_refl.
  - destruct (Ascii.eqb a sep); simpl; [discriminate|].
    intros H. now rewrite (IH H).
Qed.

(** X1: every user name and password without a colon, the empty ones too, go
    through validation as given: [creds = u:p] with one positional argument
    [a] is accepted, and the options hold the address of the flag, [u], [p]
    and [a]. *)
Theorem validateFlags_accepts_user_colon_pass
    (fl : Flags) (u p a : string) :
  strings_Count u ":" = 0 -> strings_Count p ":" = 0 ->
  flags_creds fl = (u ++ String ":" p)%string ->
  snd (validateFlags fl [a]) = None
  /\ user (fst (validateFlags fl [a])) = u
  /\ pass (fst (validateFlags fl [a])) = p
  /\ dbAddr (fst (validateFlags fl [a])) = flags_dbAddr fl
  /\ path (fst (validateFlags fl [a])) = a.
Proof.
  intros Hu Hp Hcreds.
  assert (Hparts : strings_Split (flags_creds fl) ":" = [u; p]).
  { rewrite Hcreds, strings_Split_app by exact Hu.
    now rewrite strings_Split_no_sep by exact Hp. }
  destruct (validateFlags_cases fl [a]) as [[Hn _] | [(_ & Hn & _) | (_ & _ & E)]].
  - rewrite Hparts in Hn. now elim Hn.
  - now elim Hn.
  - rewrite E, Hparts. repeat split; reflexivity.
Qed.

Lemma validateFlags_accepts_user_colon_pass_witness :
  strings_Count "" ":" = 0
  /\ snd (validateFlags (Sample.flags_with_creds ":") ["/tmp/docs"]) = None
  /\ user (fst (validateFlags (Sample.flags_with_creds ":") ["/tmp/docs"])) = "".
Proof.
  split; [reflexivity|].
  pose proof (@validateFlags_accepts_user_colon_pass
                (Sample.flags_with_creds ":") "" "" "/tmp/docs"
                eq_refl eq_refl eq_refl) as (He & Hu & _).
  split; [exact He | exact Hu].
Defined.

(** X2: when validation succeeds the options are those of the input and of
    nothing else: there is exactly one positional argument and it is the
    path, the address is the flag's, and [creds] is [user:pass] with no
    colon in either. *)
Theorem validateFlags_success_inversion (fl : Flags) (args : list string) :
  snd (validateFlags fl args) = None ->
  let opts := fst (validateFlags fl args) in
  args = [path opts]
  /\ dbAddr opts = flags_dbAddr fl
  /\ flags_creds fl = (user opts ++ String ":" (pass opts))%string
  /\ strings_Count (user opts) ":" = 0
  /\ strings_Count (pass opts) ":" = 0.
Proof.
  intros Hok opts. subst opts.
  destruct (validateFlags_cases fl args) as [[_ E] | [(_ & _ & E) | (H2 & H1 & E)]];
    rewrite E in Hok |- *; simpl in Hok; try discriminate. simpl.
  pose proof (strings_Join_Split (flags_creds fl) ":") as HJ.
  pose proof (strings_Split_pieces (flags_creds fl) ":") as HP.
  destruct (strings_Split (flags_creds fl) ":") as [|u [|p [|x xs]]]; try discriminate.
  destruct args as [|a [|b bs]]; try discriminate.
  inversion HP as [|? ? Hu HP']; subst. inversion HP' as [|? ? Hp _]; subst.
  unfold index; simpl. simpl in HJ.
  repeat split; [now symmetry | exact Hu | exact Hp].
Qed.

Lemma validateFlags_success_inversion_witness :
  snd (validateFlags Sample.flags_alice ["/tmp/docs"]) = None
  /\ flags_creds Sample.flags_alice
     = (user (fst (validateFlags Sample.flags_alice ["/tmp/docs"])) ++ String ":"
          (pass (fst (validateFlags Sample.flags_alice ["/tmp/docs"]))))%string.
Proof.
  split; [reflexivity|].
  exact (proj1 (proj2 (proj2
    (@validateFlags_success_inversion Sample.flags_alice ["/tmp/docs"] eq_refl)))).
Defined.

(** X3: when validation fails the error is one of the two messages, the one
    about [creds] whenever [creds] is malformed, whatever the arguments;
    the options returned beside it never hold a path, are all empty on the
    creds error, and hold the address and the two parts of [creds] on the
    argument error. *)
Theorem validateFlags_failure_inversion
    (fl : Flags) (args : list string) (err : error) :
  snd (validateFlags fl args) = Some err ->
  let opts := fst (validateFlags fl args) in
  let parts := strings_Split (flags_creds fl) ":" in
  path opts = ""
  /\ (length parts <> 2 -> err = err_creds /\ opts = zero_options)
  /\ (length parts = 2 ->
        err = err_args /\ length args <> 1
        /\ dbAddr opts = flags_dbAddr fl
        /\ parts = [user opts; pass opts]).
Proof.
  intros Herr opts parts. subst opts parts.
  destruct (validateFlags_cases fl args) as [[Hn E] | [(H2 & H1 & E) | (H2 & H1 & E)]];
    rewrite E in Herr |- *; simpl in Herr; try discriminate; simpl.
  - inversion Herr; subst. repeat split; try reflexivity; intros; contradiction.
  - inversion Herr; subst. split; [reflexivity|]. split; [intros; contradiction|].
    intros _. repeat split; try assumption.
    destruct (strings_Split (flags_creds fl) ":") as [|u [|p [|x xs]]]; try discriminate.
    reflexivity.
Qed.

Lemma validateFlags_failure_inversion_witness :
  snd (validateFlags (Sample.flags_with_creds "a:b:c") []) = Some err_creds
  /\ path (fst (validateFlags (Sample.flags_with_creds "a:b:c") [])) = "".
Proof.
  split; [reflexivity|].
  exact (proj1 (@validateFlags_failure_inversion
                  (Sample.flags_with_creds "a:b:c") [] err_creds eq_refl)).
Defined.

(** ** More on the coordinator *)

Section CoordinatorSafety.

Context {GuacNode GuacEdge : Type}.
Local Abbreviation World := (World GuacNode GuacEdge).
Local Abbreviation State := (State GuacNode GuacEdge).

Variable emitFunc : Document -> World -> World.
Variable numCollectors : Z.

(** X5: in every state of every run, whatever the collectors do: the documents
    passed to [emit] are the first of those sent, in the order sent, each
    once; those behind them are still in the channel, but for one, the
    document of capacity below 10 on which the coordinator died, if it
    did. *)
Theorem emitted_is_prefix_of_placed (s : State) :
  reachable emitFunc numCollectors s ->
  exists lost,
    placed s = emitted s ++ lost ++ docChan s
    /\ (panicked s = false -> lost = [])
    /\ (panicked s = true -> exists d, lost = [d] /\ cap (Blob d) < 10).
Proof.
  apply (@reachable_invariant _ _ emitFunc numCollectors
           (fun s => exists lost,
                placed s = emitted s ++ lost ++ docChan s
                /\ (panicked s = false -> lost = [])
                /\ (panicked s = true -> exists d, lost = [d] /\ cap (Blob d) < 10))).
  - exists []. simpl. destruct (0 <? numCollectors)%Z; simpl;
      repeat split; try reflexivity; discriminate.
  - intros a s0 s' (lost & Hpl & Hlive & Hdead) Hstep.
    destruct (step_cases _ _ _ _ Hstep)
      as [(p & d & _ & ->) | [(p & e & _ & ->) | [(d & rest & _ & Hl & Hd & ->)
         | [(sig & rest & _ & _ & Hl & _ & ->) | (_ & _ & Hl & _ & ->)]]]]; simpl.
    + exists lost. split; [|split; assumption].
      rewrite Hpl. now rewrite <- !app_assoc.
    + exists lost. repeat split; assumption.
    + rewrite (Hlive Hl), Hd in Hpl. simpl in Hpl.
      destruct (le_lt_dec 10 (cap (Blob d))) as [Hin | Hout].
      * rewrite on_doc_in_range by exact Hin. simpl. exists [].
        split; [rewrite Hpl; now rewrite <- app_assoc|].
        split; [reflexivity | discriminate].
      * rewrite on_doc_out_of_range by exact Hout. simpl. exists [d].
        split; [exact Hpl|]. split; [discriminate|].
        intros _. exists d. split; [reflexivity | exact Hout].
    + exists lost. split; [exact Hpl|].
      split; [intros _; exact (Hlive Hl) | discriminate].
    + exists lost. split; [exact Hpl|].
      split; [intros _; exact (Hlive Hl) | discriminate].
Qed.


(** X7: with no collector to wait for (a count of zero, or below) the wait loop
    is not entered: no completion signal is ever received, the counter
    stays at zero, and on an empty channel the first drain turn ends
    [Run]. *)
Theorem no_collectors_no_wait (s : State) :
  (numCollectors <= 0)%Z ->
  reachable emitFunc numCollectors s ->
  past_wait_loop s = true /\ observed s = [] /\ collectorsDone s = 0%Z
  /\ exists s1,
      step emitFunc numCollectors DrainTurn (init GuacNode GuacEdge numCollectors) = Some s1
      /\ pc s1 = Returned /\ emitted s1 = [] /\ world s1 = empty_World _ _.
Proof.
  intros Hle Hreach.
  assert (Hnot : (0 <? numCollectors)%Z = false) by (apply Z.ltb_ge; exact Hle).
  assert (Hinv : past_wait_loop s = true /\ observed s = []
                 /\ collectorsDone s = 0%Z).
  { revert s Hreach.
    apply (@reachable_invariant _ _ emitFunc numCollectors
             (fun s => past_wait_loop s = true /\ observed s = []
                       /\ collectorsDone s = 0%Z)).
    - unfold init, past_wait_loop. rewrite Hnot. simpl. repeat split; reflexivity.
    - intros a s0 s' (Hpast & Hobs & Hdone) Hstep.
      destruct (step_cases _ _ _ _ Hstep)
        as [(p & d & _ & ->) | [(p & e & _ & ->) | [(d & rest & _ & _ & _ & ->)
           | [(sig & rest & _ & Hpc & _ & _ & ->) | (_ & _ & _ & _ & ->)]]]];
        unfold past_wait_loop in *; simpl.
      + repeat split; assumption.
      + repeat split; assumption.
      + unfold on_doc. destruct (log_and_emit emitFunc d (world s0)); simpl;
          repeat split; assumption.
      + rewrite Hpc in Hpast. discriminate.
      + repeat split; assumption. }
  destruct Hinv as (Hpast & Hobs & Hdone).
  repeat apply conj; try assumption.
  unfold init. rewrite Hnot. simpl. eexists. split; [reflexivity|].
  repeat split; reflexivity.
Qed.

End CoordinatorSafety.

Section CoordinatorLiveness.

Context {GuacNode GuacEdge : Type}.
Local Abbreviation World := (World GuacNode GuacEdge).
Local Abbreviation State := (State GuacNode GuacEdge).

Variable emitFunc : Document -> World -> World.
Variable numCollectors : Z.
Hypothesis numCollectors_is_count : (0 <= numCollectors <= int_max)%Z.

Lemma disciplined_run_well_run (sched : list Action) (s : State) :
  disciplined emitFunc numCollectors sched (init GuacNode GuacEdge numCollectors) = true ->
  run emitFunc numCollectors sched (init GuacNode GuacEdge numCollectors) = Some s ->
  well_run numCollectors s /\ fifo s.
Proof.
  intros Hd Hrun. split.
  - apply (@disciplined_invariant _ _ emitFunc numCollectors (well_run numCollectors)
             (@step_keeps_well_run _ _ emitFunc numCollectors numCollectors_is_count)
             sched (init GuacNode GuacEdge numCollectors) s);
      [apply well_run_init; exact numCollectors_is_count | exact Hd | exact Hrun].
  - apply (@reachable_fifo _ _ emitFunc numCollectors numCollectors_is_count).
    now exists sched.
Qed.

(** X8: with collectors that send their signal once and nothing after it was
    received, and documents of capacity 10 or more: the coordinator never
    dies, no document is lost on the way, and when [Run] has returned every
    document sent has been passed to [emit], once, in the order sent, and
    the channel is empty. *)
Theorem disciplined_run_emits_every_document (sched : list Action) (s : State) :
  disciplined emitFunc numCollectors sched (init GuacNode GuacEdge numCollectors) = true ->
  run emitFunc numCollectors sched (init GuacNode GuacEdge numCollectors) = Some s ->
  previews_in_range (placed s) ->
  panicked s = false
  /\ placed s = emitted s ++ docChan s
  /\ (pc s = Returned -> emitted s = placed s /\ docChan s = []).
Proof.
  intros Hd Hrun Hr.
  destruct (@documents_emitted_exactly_once _ _ emitFunc numCollectors
              numCollectors_is_count sched s Hd Hrun) as (Hf & Hret & Hlive).
  destruct (disciplined_run_well_run sched Hd Hrun) as [(_ & _ & Hcl) _].
  specialize (Hlive Hr).
  split; [exact Hlive|]. split; [exact (Hf Hlive)|].
  intros Hpc. split; [exact (Hret Hpc) | exact (proj2 (Hcl Hpc))].
Qed.

Lemma forallb_repeat (a : Action) (n : nat) :
  coordinator_action a = true -> forallb coordinator_action (repeat a n) = true.
Proof.
  intros Ha. induction n as [|n IH]; simpl; [reflexivity|]. now rewrite Ha, IH.
Qed.

(** X9: the coordinator can always come to an end: in a run with such
    collectors, once every collector has sent its signal and the documents
    still in the channel have a capacity of 10 or more, steps of the
    coordinator alone lead to the return of [Run], every document sent
    passed to [emit]. *)
Theorem run_can_always_finish (sched : list Action) (s : State) :
  disciplined emitFunc numCollectors sched (init GuacNode GuacEdge numCollectors) = true ->
  run emitFunc numCollectors sched (init GuacNode GuacEdge numCollectors) = Some s ->
  panicked s = false ->
  Z.of_nat (length (signalled s)) = numCollectors ->
  previews_in_range (docChan s) ->
  exists rest s',
    forallb coordinator_action rest = true
    /\ run emitFunc numCollectors rest s = Some s'
    /\ pc s' = Returned /\ panicked s' = false
    /\ emitted s' = placed s /\ placed s' = placed s /\ docChan s' = [].
Proof.
  intros Hd Hrun Hlive Hall Hr.
  destruct (disciplined_run_well_run sched Hd Hrun) as [(Hc & Hs & Hcl) Hf].
  destruct (pc s) eqn:Hpc.
  - assert (Hsum : (collectorsDone s + Z.of_nat (length (errChan s)) = numCollectors)%Z).
    { destruct Hc as (Hc & _). destruct Hs as (Hs & _).
      rewrite Hc, <- Hall, <- Hs, length_app, !length_map. unfold Signal. lia. }
    destruct (@coordinator_returns_once_all_signalled _ _ emitFunc numCollectors
                numCollectors_is_count s Hpc Hlive Hc Hf Hsum Hr)
      as (s' & Hrun' & Hpc' & Hlive' & Hd' & He' & Hp').
    exists (repeat SelectErr (length (errChan s))
            ++ repeat DrainTurn (S (length (docChan s)))), s'.
    split; [rewrite forallb_app, !forallb_repeat by reflexivity; reflexivity|].
    repeat split; assumption.
  - exists (repeat DrainTurn (S (length (docChan s)))). eexists.
    split; [apply forallb_repeat; reflexivity|].
    split; [apply (drain_emits_buffer_in_order emitFunc numCollectors s Hpc Hlive eq_refl Hr)|].
    simpl. destruct Hf as [Hf _]. rewrite (Hf Hlive). repeat split; reflexivity.
  - exists [], s. destruct (Hcl Hpc) as [_ Hempty]. destruct Hf as [Hf _].
    split; [reflexivity|]. split; [reflexivity|].
    rewrite (Hf Hlive), Hempty, app_nil_r. repeat split; assumption.
Qed.

End CoordinatorLiveness.

(** ** More on the pipeline and on the log *)

Lemma collector_outcomes_app (l1 l2 : list LogLine) :
  collector_outcomes (l1 ++ l2) = collector_outcomes l1 ++ collector_outcomes l2.
Proof. unfold collector_outcomes. apply flat_map_app. Qed.

Lemma emitting_lines_app (l1 l2 : list LogLine) :
  emitting_lines (l1 ++ l2) = emitting_lines l1 ++ emitting_lines l2.
Proof. unfold emitting_lines. apply filter_app. Qed.

(** The error lines of [emit] are neither collector lines nor document
    lines. *)
Lemma stage_error_lines_apart (lines : list LogLine) :
  forallb stage_error_line lines = true ->
  collector_outcomes lines = [] /\ emitting_lines lines = [].
Proof.
  induction lines as [|l lines IH]; simpl; [split; reflexivity|].
  intros H. apply andb_prop in H. destruct H as [Hl Hls].
  destruct (IH Hls) as [Hc He].
  destruct l; try discriminate; simpl; split; assumption.
Qed.

Section PipelineAccounting.

Context {GuacNode GuacEdge DocumentTree Client : Type}.
Local Abbreviation Graph := (Assembler.Graph GuacNode GuacEdge).
Local Abbreviation World := (World GuacNode GuacEdge).
Local Abbreviation State := (State GuacNode GuacEdge).

Variable Process : Document -> result DocumentTree.
Variable ParseDocumentTree : DocumentTree -> result (list Graph).
Variable NewGraphClient : string -> AuthToken -> result Client.
Variable StoreGraph_err : Graph -> Client -> list Graph -> option error.

Variable opts : options.
Variable e : Document -> World -> World.
Hypothesis e_is_Run_emit :
  Run_emit Process ParseDocumentTree NewGraphClient StoreGraph_err opts = Some e.

(** What one call of the pipeline adds to the log. *)
Lemma logged_emit_lines (d : Document) (w : World) :
  exists lines,
    logged (e d w) = logged w ++ lines
    /\ length lines <= 1 /\ forallb stage_error_line lines = true.
Proof.
  destruct (Run_emit_unfold _ _ _ _ _ e_is_Run_emit) as (client & _ & Hemit).
  rewrite Hemit.
  destruct (Process d) as [docTree|err]; simpl;
    [|eexists; split; [reflexivity | split; [simpl; lia | reflexivity]]].
  destruct (ParseDocumentTree docTree) as [graphs|err]; simpl;
    [|eexists; split; [reflexivity | split; [simpl; lia | reflexivity]]].
  destruct (StoreGraph_err (merge graphs) client (stored w)); simpl.
  - eexists; split; [reflexivity | split; [simpl; lia | reflexivity]].
  - exists []. rewrite app_nil_r. split; [reflexivity | split; [simpl; lia | reflexivity]].
Qed.

(** X4: [emit] only ever adds to the store calls and to the log, at most one
    store call and at most one line, the line one of its three error
    lines; it logs nothing exactly when the three stages succeed, and
    calls the store exactly when [Process] and the ingestor do. *)
Theorem emit_appends_at_most_once (client : Client) (d : Document) (w : World) :
  NewGraphClient (dbAddr opts) (getAssembler_authToken opts) = Ok client ->
  exists wrote lines,
    stored (e d w) = stored w ++ wrote
    /\ logged (e d w) = logged w ++ lines
    /\ length wrote <= 1 /\ length lines <= 1
    /\ forallb stage_error_line lines = true
    /\ (wrote = [] <-> ingested Process ParseDocumentTree d = None)
    /\ (lines = [] <->
        exists graphs,
          ingested Process ParseDocumentTree d = Some graphs
          /\ StoreGraph_err (merge graphs) client (stored w) = None).
Proof.
  intros Hclient.
  destruct (Run_emit_unfold _ _ _ _ _ e_is_Run_emit) as (client' & Hclient' & Hemit).
  rewrite Hclient in Hclient'. inversion Hclient'; subst client'.
  rewrite Hemit. unfold ingested.
  destruct (Process d) as [docTree|err]; simpl.
  - destruct (ParseDocumentTree docTree) as [graphs|err]; simpl.
    + destruct (StoreGraph_err (merge graphs) client (stored w)) as [err|] eqn:Hs; simpl.
      * exists [merge graphs], [Errorf_unable_to_assemble err].
        repeat apply conj; try reflexivity; simpl; try lia; try discriminate.
        intros (graphs' & Hi & Hs'). inversion Hi; subst. congruence.
      * exists [merge graphs], []. rewrite app_nil_r.
        repeat apply conj; try reflexivity; simpl; try lia; try discriminate.
        intros _. exists graphs. split; [reflexivity | exact Hs].
    + exists [], [Errorf_unable_to_ingest err]. rewrite app_nil_r.
      repeat apply conj; try reflexivity; simpl; try lia; try discriminate.
      intros (graphs' & Hi & _). discriminate.
  - exists [], [Errorf_unable_to_process err (Format d) (DocType d)]. rewrite app_nil_r.
    repeat apply conj; try reflexivity; simpl; try lia; try discriminate.
    intros (graphs' & Hi & _). discriminate.
Qed.

(** The store calls of a run are those of the documents passed to [emit]. *)
Lemma reachable_stored (numCollectors : Z) (s : State) :
  reachable e numCollectors s ->
  stored (world s) = store_writes Process ParseDocumentTree (emitted s).
Proof.
  apply (@reachable_invariant _ _ e numCollectors
           (fun s => stored (world s)
                     = store_writes Process ParseDocumentTree (emitted s))).
  - reflexivity.
  - intros a s0 s' Hs Hstep.
    destruct (step_cases _ _ _ _ Hstep)
      as [(p & d & _ & ->) | [(p & err & _ & ->) | [(d & rest & _ & _ & _ & ->)
         | [(sig & rest & _ & _ & _ & _ & ->) | (_ & _ & _ & _ & ->)]]]];
      simpl; try exact Hs.
    + unfold on_doc, log_and_emit. destruct (slice_to (Blob d) 10); simpl; [|exact Hs].
      rewrite (@stored_emit _ _ _ _ Process ParseDocumentTree NewGraphClient
                 StoreGraph_err opts e d _ e_is_Run_emit), store_writes_app.
      simpl. now rewrite Hs.
    + destruct (snd sig); simpl; exact Hs.
Qed.

(** X10: the log tells the run: in every state, the collector lines of the log
    are the completion signals received, in order, an error line for a
    signal with an error and a graceful line for nil; and the document
    lines are those of the documents passed to [emit], in order, one
    each. *)
Theorem log_tells_the_run (numCollectors : Z) (s : State) :
  reachable e numCollectors s ->
  collector_outcomes (logged (world s)) = map snd (observed s)
  /\ emitting_lines (logged (world s)) = map preview_line (emitted s).
Proof.
  apply (@reachable_invariant _ _ e numCollectors
           (fun s => collector_outcomes (logged (world s)) = map snd (observed s)
                     /\ emitting_lines (logged (world s)) = map preview_line (emitted s))).
  - split; reflexivity.
  - intros a s0 s' [Hc He] Hstep.
    destruct (step_cases _ _ _ _ Hstep)
      as [(p & d & _ & ->) | [(p & err & _ & ->) | [(d & rest & _ & _ & _ & ->)
         | [(sig & rest & _ & _ & _ & _ & ->) | (_ & _ & _ & _ & ->)]]]];
      simpl; try (split; assumption).
    + destruct (le_lt_dec 10 (cap (Blob d))) as [Hin | Hout].
      * rewrite on_doc_in_range by exact Hin. simpl. unfold logged_emit.
        destruct (logged_emit_lines d
                    (log (world s0)
                       (Infof_emitting_doc
                          (string_of_list_byte
                             (firstn 10 (elems (Blob d) ++ spare (Blob d))))
                          (Format d) (DocType d))))
          as (lines & -> & _ & Hlines).
        destruct (stage_error_lines_apart _ Hlines) as [Hc' He'].
        simpl. rewrite !collector_outcomes_app, !emitting_lines_app, Hc', He', Hc, He.
        simpl. rewrite !app_nil_r, map_app. split; reflexivity.
      * rewrite on_doc_out_of_range by exact Hout. simpl. split; assumption.
    + rewrite map_app. destruct sig as [p [err|]]; simpl;
        rewrite collector_outcomes_app, emitting_lines_app, Hc, He; simpl;
        rewrite app_nil_r; split; reflexivity.
Qed.

End PipelineAccounting.

(** ** The start of Run *)

Section StartupFacts.

Context {GuacNode GuacEdge DocumentTree Client : Type}.
Local Abbreviation Graph := (Assembler.Graph GuacNode GuacEdge).
Local Abbreviation World := (World GuacNode GuacEdge).
Local Abbreviation State := (State GuacNode GuacEdge).

Variable Process : Document -> result DocumentTree.
Variable ParseDocumentTree : DocumentTree -> result (list Graph).
Variable NewGraphClient : string -> AuthToken -> result Client.
Variable StoreGraph_err : Graph -> Client -> list Graph -> option error.
Variable RegisterDocumentCollector_err : string -> option error.
Variable Collect : option error -> result Z.

Local Abbreviation start :=
  (Run_start Process ParseDocumentTree NewGraphClient StoreGraph_err
     RegisterDocumentCollector_err Collect).
Local Abbreviation pipeline_of :=
  (Run_emit Process ParseDocumentTree NewGraphClient StoreGraph_err).
Local Abbreviation until_client := (until_client RegisterDocumentCollector_err).

(** The four ways the start of [Run] can go. *)
Lemma Run_start_cases (fl : Flags) (args : list string) :
  let opts := fst (validateFlags fl args) in
  let registered := RegisterDocumentCollector_err (path opts) in
  (exists err,
      snd (validateFlags fl args) = Some err
      /\ start fl args = ([Printf_unable_to_validate_flags err; cmd_Help], Exited _ _ 1))
  \/ (exists err,
        snd (validateFlags fl args) = None
        /\ NewGraphClient (dbAddr opts) (getAssembler_authToken opts) = Err err
        /\ pipeline_of opts = None
        /\ start fl args = (until_client opts ++ [Errorf_error err], Exited _ _ 1))
  \/ (exists e err,
        snd (validateFlags fl args) = None
        /\ pipeline_of opts = Some e
        /\ Collect registered = Err err
        /\ start fl args
           = (until_client opts ++ [Collect_call; logger_Fatal err], Fatal _ _ err))
  \/ (exists e numCollectors,
        snd (validateFlags fl args) = None
        /\ pipeline_of opts = Some e
        /\ Collect registered = Ok numCollectors
        /\ start fl args
           = (until_client opts ++ [Collect_call], Collecting e numCollectors)).
Proof.
  intros opts registered. subst opts registered.
  unfold Run_start, Run_emit, until_client.
  destruct (validateFlags fl args) as [opts [err|]]; simpl.
  - left. exists err. split; reflexivity.
  - right. unfold getProcessor, getIngestor, getAssembler.
    destruct (NewGraphClient (dbAddr opts) (getAssembler_authToken opts))
      as [client|err] eqn:Hc.
    + right.
      destruct (Collect (RegisterDocumentCollector_err (path opts)))
        as [numCollectors|err] eqn:HC.
      * right. eexists. exists numCollectors.
        repeat apply conj; try reflexivity; now rewrite <- !app_assoc.
      * left. eexists. exists err.
        repeat apply conj; try reflexivity; now rewrite <- !app_assoc.
    + left. exists err. repeat apply conj; try reflexivity; now rewrite <- !app_assoc.
Qed.

(** X11: [Run] stops at the flags exactly when [creds] does not hold exactly
    one colon or there is not exactly one positional argument: it prints the
    error, shows the help and exits with code 1, and has then made no
    collector, opened no store client and started no collection. *)
Theorem Run_stops_on_invalid_flags (fl : Flags) (args : list string) :
  (strings_Count (flags_creds fl) ":" <> 1 \/ length args <> 1)
  <-> exists err,
      (err = err_creds \/ err = err_args)
      /\ start fl args = ([Printf_unable_to_validate_flags err; cmd_Help], Exited _ _ 1).
Proof.
  pose proof (strings_Split_length (flags_creds fl) ":") as Hlen.
  split.
  - intros Hbad.
    destruct (validateFlags_cases fl args) as [[Hn E] | [(H2 & H1 & E) | (H2 & H1 & E)]].
    + exists err_creds. split; [now left|]. unfold Run_start. now rewrite E.
    + exists err_args. split; [now right|]. unfold Run_start. now rewrite E.
    + exfalso. destruct Hbad as [Hc | Ha]; [|contradiction]. apply Hc. lia.
  - intros (err & _ & Hstart).
    destruct (validateFlags_cases fl args) as [[Hn E] | [(H2 & H1 & E) | (H2 & H1 & E)]].
    + left. lia.
    + right. exact H1.
    + exfalso. unfold Run_start in Hstart. rewrite E in Hstart.
      unfold getProcessor, getIngestor in Hstart.
      destruct (getAssembler NewGraphClient StoreGraph_err _);
        [destruct (Collect _)|]; inversion Hstart.
Qed.

(** X12: whenever [Run] exits before the wait loop the code is 1,
    [collector.Collect] has not been called, and the cause is the flags or
    the store client: [getProcessor] and [getIngestor] never fail, and a
    failed registration of the file collector does not stop [Run]. *)
Theorem Run_exits_with_1_before_Collect
    (fl : Flags) (args : list string) (code : Z) :
  snd (start fl args) = Exited _ _ code ->
  let opts := fst (validateFlags fl args) in
  code = 1%Z
  /\ ~ In Collect_call (fst (start fl args))
  /\ (snd (validateFlags fl args) <> None
      \/ exists err,
          NewGraphClient (dbAddr opts) (getAssembler_authToken opts) = Err err).
Proof.
  intros Hexit opts.
  destruct (Run_start_cases fl args)
    as [(err & Hv & E) | [(err & Hv & Hc & _ & E)
       | [(e & err & _ & _ & _ & E) | (e & n & _ & _ & _ & E)]]];
    rewrite E in Hexit |- *; simpl in Hexit; try discriminate.
  - inversion Hexit; subst. split; [reflexivity|]. split.
    + simpl. intros [H | [H | []]]; discriminate.
    + left. rewrite Hv. discriminate.
  - inversion Hexit; subst. split; [reflexivity|]. split.
    + simpl. unfold until_client.
      destruct (RegisterDocumentCollector_err (path (fst (validateFlags fl args))));
        simpl; intuition discriminate.
    + right. exists err. exact Hc.
Qed.

(** X13: [Run] enters the wait loop with pipeline [e] and [numCollectors]
    collectors exactly when the flags are valid, the store client could be
    created, so that [e] is the pipeline on the validated options, and
    [collector.Collect] returned [numCollectors]. *)
Theorem Run_collects_iff
    (fl : Flags) (args : list string) (e : Document -> World -> World) (numCollectors : Z) :
  let opts := fst (validateFlags fl args) in
  snd (start fl args) = Collecting e numCollectors
  <-> snd (validateFlags fl args) = None
      /\ pipeline_of opts = Some e
      /\ Collect (RegisterDocumentCollector_err (path opts)) = Ok numCollectors.
Proof.
  intros opts. subst opts.
  destruct (Run_start_cases fl args)
    as [(err & Hv & E) | [(err & Hv & Hc & Hp & E)
       | [(e' & err & Hv & Hp & HC & E) | (e' & n & Hv & Hp & HC & E)]]];
    rewrite E; simpl.
  - split; [discriminate|]. intros (Hv' & _). congruence.
  - split; [discriminate|]. intros (_ & Hp' & _). congruence.
  - split; [discriminate|]. intros (_ & _ & HC'). congruence.
  - split.
    + intros H. inversion H; subst. repeat split; assumption.
    + intros (_ & Hp' & HC'). rewrite Hp in Hp'. rewrite HC in HC'.
      inversion Hp'; inversion HC'; subst. reflexivity.
Qed.

(** X14: [Run] from the flags to its return: with valid flags, a store client,
    [numCollectors] collectors that send their signal once and nothing after
    it was received, and documents of capacity 10 or more, when [Run] has
    returned every document sent was passed to [emit] once, in the order
    sent, and the store was called once for each document that [Process] and
    the ingestor accept, with the merge of its graphs, in that order. *)
Theorem Run_stores_every_document_once
    (fl : Flags) (args : list string) (sched : list Action)
    (e : Document -> World -> World) (numCollectors : Z) (s : State) :
  snd (start fl args) = Collecting e numCollectors ->
  (0 <= numCollectors <= int_max)%Z ->
  disciplined e numCollectors sched (init GuacNode GuacEdge numCollectors) = true ->
  Run Process ParseDocumentTree NewGraphClient StoreGraph_err
    RegisterDocumentCollector_err Collect fl args sched = Some s ->
  previews_in_range (placed s) ->
  pc s = Returned ->
  emitted s = placed s
  /\ docChan s = []
  /\ stored (world s) = store_writes Process ParseDocumentTree (placed s).
Proof.
  intros Hstart Hrange Hd Hrun Hr Hpc.
  unfold Run in Hrun. rewrite Hstart in Hrun.
  assert (Hp : pipeline_of (fst (validateFlags fl args)) = Some e).
  { destruct (Run_start_cases fl args)
      as [(err & _ & E) | [(err & _ & _ & _ & E)
         | [(e' & err & _ & _ & _ & E) | (e' & n & _ & Hp & _ & E)]]];
      rewrite E in Hstart; simpl in Hstart; try discriminate.
    inversion Hstart; subst. exact Hp. }
  destruct (@documents_emitted_exactly_once _ _ e numCollectors Hrange sched s Hd Hrun)
    as (Hf & Hret & Hlive).
  specialize (Hret Hpc). specialize (Hf (Hlive Hr)).
  split; [exact Hret|]. split.
  - rewrite Hret in Hf.
    assert (Hnil : placed s ++ [] = placed s ++ docChan s) by (now rewrite app_nil_r).
    apply app_inv_head in Hnil. now symmetry.
  - rewrite <- Hret.
    apply (@reachable_stored _ _ _ _ Process ParseDocumentTree NewGraphClient
             StoreGraph_err _ e Hp numCollectors s).
    now exists sched.
Qed.

End StartupFacts.

(** ** The further properties on concrete runs *)

Lemma emitted_is_prefix_of_placed_witness :
  exists s lost,
    run Sample.pipeline 1 (Sample.two_documents Sample.doc_long Sample.doc_short
                           ++ [SelectDoc; SelectDoc]) (init _ _ 1) = Some s
    /\ placed s = emitted s ++ lost ++ docChan s.
Proof.
  destruct (run Sample.pipeline 1
              (Sample.two_documents Sample.doc_long Sample.doc_short
               ++ [SelectDoc; SelectDoc]) (init _ _ 1)) as [s|] eqn:E; [|discriminate].
  destruct (@emitted_is_prefix_of_placed _ _ Sample.pipeline 1 s
              (ex_intro _ _ E)) as (lost & Hpl & _).
  exists s, lost. split; [reflexivity | exact Hpl].
Defined.


Lemma no_collectors_no_wait_witness :
  (0 <= 0)%Z
  /\ past_wait_loop (init Sample.Node Sample.Edge 0) = true.
Proof.
  split; [lia|].
  exact (proj1 (@no_collectors_no_wait _ _ Sample.pipeline 0
                  (init Sample.Node Sample.Edge 0) (Z.le_refl 0)
                  (ex_intro _ [] eq_refl))).
Defined.

Lemma disciplined_run_emits_every_document_witness :
  exists s,
    run Sample.pipeline 1 (Sample.full_run Sample.doc_long) (init _ _ 1) = Some s
    /\ panicked s = false /\ placed s = emitted s ++ docChan s.
Proof.
  assert (Hrange : (0 <= 1 <= int_max)%Z) by (unfold int_max; lia).
  eexists. split; [reflexivity|].
  refine (let H := @disciplined_run_emits_every_document _ _ Sample.pipeline 1 Hrange
                     (Sample.full_run Sample.doc_long) _ eq_refl eq_refl _ in
          conj (proj1 H) (proj1 (proj2 H))).
  constructor; [vm_compute; lia | constructor].
Defined.

Lemma run_can_always_finish_witness :
  exists s rest s',
    run Sample.pipeline 1 (Sample.one_document Sample.doc_long) (init _ _ 1) = Some s
    /\ run Sample.pipeline 1 rest s = Some s'
    /\ pc s' = Returned /\ emitted s' = placed s.
Proof.
  assert (Hrange : (0 <= 1 <= int_max)%Z) by (unfold int_max; lia).
  destruct (run Sample.pipeline 1 (Sample.one_document Sample.doc_long) (init _ _ 1))
    as [s|] eqn:E; [|discriminate].
  injection E as <-.
  destruct (@run_can_always_finish _ _ Sample.pipeline 1 Hrange
              (Sample.one_document Sample.doc_long) _ eq_refl eq_refl eq_refl eq_refl)
    as (rest & s' & _ & Hrun & Hpc & _ & He & _).
  { constructor; [vm_compute; lia | constructor]. }
  eexists. exists rest, s'. split; [reflexivity|]. repeat split; assumption.
Defined.

Lemma emit_appends_at_most_once_witness :
  Run_emit Sample.Process Sample.ParseDocumentTree Sample.NewGraphClient
    Sample.StoreGraph_err Sample.opts_alice = Some Sample.pipeline
  /\ exists wrote lines,
      stored (Sample.pipeline Sample.doc_long (empty_World _ _)) = wrote
      /\ logged (Sample.pipeline Sample.doc_long (empty_World _ _)) = lines
      /\ length wrote <= 1 /\ length lines <= 1.
Proof.
  split; [reflexivity|].
  destruct (@emit_appends_at_most_once _ _ _ _
              Sample.Process Sample.ParseDocumentTree Sample.NewGraphClient
              Sample.StoreGraph_err Sample.opts_alice Sample.pipeline eq_refl
              (default_dbAddr, getAssembler_authToken Sample.opts_alice)
              Sample.doc_long (empty_World _ _) eq_refl)
    as (wrote & lines & Hs & Hl & Hw1 & Hl1 & _).
  exists wrote, lines. repeat split; assumption.
Defined.

Lemma log_tells_the_run_witness :
  exists s,
    run Sample.pipeline 1 (Sample.full_run Sample.doc_long) (init _ _ 1) = Some s
    /\ collector_outcomes (logged (world s)) = map snd (observed s).
Proof.
  destruct (run Sample.pipeline 1 (Sample.full_run Sample.doc_long) (init _ _ 1))
    as [s|] eqn:E; [|discriminate].
  exists s. split; [reflexivity|].
  exact (proj1 (@log_tells_the_run _ _ _ _
                  Sample.Process Sample.ParseDocumentTree Sample.NewGraphClient
                  Sample.StoreGraph_err Sample.opts_alice Sample.pipeline eq_refl
                  1%Z s (ex_intro _ _ E))).
Defined.

Lemma Run_exits_with_1_before_Collect_witness :
  snd (Run_start Sample.Process Sample.ParseDocumentTree Sample.NewGraphClient
         Sample.StoreGraph_err Sample.RegisterDocumentCollector_err Sample.Collect
         (Sample.flags_with_creds "alice") ["/tmp/docs"])
  = Exited _ _ 1
  /\ ~ In Collect_call
         (fst (Run_start Sample.Process Sample.ParseDocumentTree Sample.NewGraphClient
                 Sample.StoreGraph_err Sample.RegisterDocumentCollector_err Sample.Collect
                 (Sample.flags_with_creds "alice") ["/tmp/docs"])).
Proof.
  split; [reflexivity|].
  exact (proj1 (proj2
    (@Run_exits_with_1_before_Collect _ _ _ _
       Sample.Process Sample.ParseDocumentTree Sample.NewGraphClient
       Sample.StoreGraph_err Sample.RegisterDocumentCollector_err Sample.Collect
       (Sample.flags_with_creds "alice") ["/tmp/docs"] 1%Z eq_refl))).
Defined.

Lemma Run_stores_every_document_once_witness :
  exists s,
    Run Sample.Process Sample.ParseDocumentTree Sample.NewGraphClient
      Sample.StoreGraph_err Sample.RegisterDocumentCollector_err Sample.Collect
      Sample.flags_alice ["/tmp/docs"] (Sample.full_run Sample.doc_long) = Some s
    /\ emitted s = placed s
    /\ stored (world s)
       = store_writes Sample.Process Sample.ParseDocumentTree (placed s).
Proof.
  assert (Hrange : (0 <= 1 <= int_max)%Z) by (unfold int_max; lia).
  eexists. split; [reflexivity|].
  refine (let H := @Run_stores_every_document_once _ _ _ _
                     Sample.Process Sample.ParseDocumentTree Sample.NewGraphClient
                     Sample.StoreGraph_err Sample.RegisterDocumentCollector_err
                     Sample.Collect Sample.flags_alice ["/tmp/docs"]
                     (Sample.full_run Sample.doc_long) Sample.pipeline 1%Z _
                     eq_refl Hrange eq_refl eq_refl _ eq_refl in
          conj (proj1 H) (proj2 (proj2 H))).
  constructor; [vm_compute; lia | constructor].
Defined.
